(** * AIS viewer (mobile): vessel store, poll controller and geohash tiler

    A shallow embedding of the TypeScript sources

    - [src/config.ts]                          (module [Config]),
    - the vessel context, [src/unnamed/part_000], which the other sources
      import as [contexts/VesselContext]       (module [VesselContext]),
    - [src/utils/geohash.ts], lines 1-51       (module [Geohash]),
    - the map component, lines 54-333 of the same file, which [App.tsx]
      imports as [components/VesselMap]        (module [VesselMap]),

    together with the properties of the specification that concern them.

    Conventions of the embedding.
    - A JavaScript [number] holding a coordinate or a zoom level is a
      rational ([Q]); one holding a time in milliseconds or an [mmsi] is an
      integer ([Z]).  [NaN] and [undefined] are the [None] of an option.
    - A [Map<number, Vessel>] is a [gmap Z Vessel]; [new Map(prev)] copies the
      content, so the copy is the same finite map.
    - React state is threaded explicitly: a state setter called with an
      updater function applies the updater to the state it is handed, and
      the state updates of one handler are applied together before the
      component renders again.
    - An asynchronous function is split at its [await]: the part before it
      runs when the function is called, the part after it when the awaited
      promise settles, which is an event of its own. *)

From Stdlib Require Import ZArith QArith Qround Lqa String Ascii.
From stdpp Require Import gmap strings list fin_maps.

Local Open Scope Z_scope.

(** ** [src/config.ts] *)
Module Config.

(** Polling cadence, 10 seconds. *)
Definition POLL_INTERVAL_MS : Z := 10000.

(** Vessels are shown only at zoom >= 12. *)
Definition MIN_ZOOM_LEVEL : Q := 12%Q.

Definition DEFAULT_MAP_ZOOM : Q := 10%Q.

(** Two minutes. *)
Definition STALE_VESSEL_TIMEOUT_MS : Z := 120000.

End Config.

(** ** Records exchanged between the modules ([src/types], not among the
  sources; the fields are those the sources read) *)

(** Modelled from the spec: the [Vessel] interface of [src/types], which the
  sources import but which is not among them.  The fields are the ones
  read by [VesselMap] ([mmsi], [latitude], [longitude], the optional
  [course], [speed] and [ship_type], and [last_updated]) and listed in the
  data model of the specification. *)
Record Vessel : Type := mkVessel {
mmsi : Z;
latitude : Q;
longitude : Q;
course : option Q;
speed : option Q;
ship_type : option Z;
last_updated : string
}.

(** Modelled from the spec: the [Bbox] interface of [src/types]; the four
  fields are the ones [handleRegionDidChange] fills in. *)
Record Bbox : Type := mkBbox {
minLon : Q;
minLat : Q;
maxLon : Q;
maxLat : Q
}.

(** The JavaScript runtime's [new Date(s).getTime()]: the time value of a
  date string in milliseconds since the epoch, [None] standing for the
  [NaN] of an invalid date.  The store is verified for every such
  function; [iso8601_getTime] below is an instance for running examples. *)
Class JsDate := Date_getTime : string → option Z.

(** ** The vessel context ([src/unnamed/part_000]) *)
Module VesselContext.

(** The two pieces of state of [VesselProvider]. *)
Record Store : Type := mkStore {
  vessels : gmap Z Vessel;
  lastServerTime : option string
}.

(** [useState(new Map())] and [useState(null)]. *)
Definition initial : Store :=
  {| vessels := ∅; lastServerTime := None |}.

(** *** The updater functions handed to [setVessels] *)

(** [addVessel]: [new Map(prev)] then [set(vessel.mmsi, vessel)]. *)
Definition addVessel (vessel : Vessel) (prevVessels : gmap Z Vessel)
  : gmap Z Vessel :=
  let newVessels := prevVessels in
  <[mmsi vessel := vessel]> newVessels.

(** [updateVessel]: the same body as [addVessel]. *)
Definition updateVessel (vessel : Vessel) (prevVessels : gmap Z Vessel)
  : gmap Z Vessel :=
  let newVessels := prevVessels in
  <[mmsi vessel := vessel]> newVessels.

(** [updateMultipleVessels]: one copy, then a [set] per element of the
    array, in array order. *)
Definition updateMultipleVessels (vs : list Vessel)
    (prevVessels : gmap Z Vessel) : gmap Z Vessel :=
  let newVessels := prevVessels in
  foldl (λ acc vessel, <[mmsi vessel := vessel]> acc) newVessels vs.

(** The test [vesselTime > staleThreshold] of [removeStaleVessels]; a
    comparison with [NaN] is false. *)
Definition newerThan `{JsDate} (staleThreshold : Z) (vessel : Vessel) : bool :=
  match Date_getTime (last_updated vessel) with
  | Some vesselTime => bool_decide (vesselTime > staleThreshold)
  | None => false
  end.

(** The updater of [removeStaleVessels]: start from an empty map and copy
    every entry of the previous map that passes the test. *)
Definition sweep `{JsDate} (staleThreshold : Z) (prevVessels : gmap Z Vessel)
  : gmap Z Vessel :=
  map_fold
    (λ mmsi vessel newVessels,
       if newerThan staleThreshold vessel
       then <[mmsi := vessel]> newVessels
       else newVessels)
    (∅ : gmap Z Vessel) prevVessels.

(** The sweep for a given timeout: [staleThreshold = now - timeout]. *)
Definition evictStale `{JsDate} (now timeout : Z) (prevVessels : gmap Z Vessel)
  : gmap Z Vessel :=
  let staleThreshold := now - timeout in
  sweep staleThreshold prevVessels.

(** [removeStaleVessels], where [now] is the value of [Date.now()]. *)
Definition removeStaleVessels `{JsDate} (now : Z) (prevVessels : gmap Z Vessel)
  : gmap Z Vessel :=
  let staleThreshold := now - Config.STALE_VESSEL_TIMEOUT_MS in
  sweep staleThreshold prevVessels.

(** [clearAll]: [setVessels(new Map())] and [setLastServerTime(null)]. *)
Definition clearAll (s : Store) : Store :=
  {| vessels := ∅; lastServerTime := None |}.

(** [setLastServerTime(time)]. *)
Definition setLastServerTime (time : string) (s : Store) : Store :=
  {| vessels := vessels s; lastServerTime := Some time |}.

(** [setVessels(updater)]. *)
Definition setVessels (updater : gmap Z Vessel → gmap Z Vessel) (s : Store)
  : Store :=
  {| vessels := updater (vessels s); lastServerTime := lastServerTime s |}.

(** *** Sequences of merges *)

Inductive MergeOp : Type :=
| Merge (vessel : Vessel)
| MergeMany (vs : list Vessel).

Definition applyOp (m : gmap Z Vessel) (op : MergeOp) : gmap Z Vessel :=
  match op with
  | Merge vessel => updateVessel vessel m
  | MergeMany vs => updateMultipleVessels vs m
  end.

Definition applyOps (ops : list MergeOp) (m : gmap Z Vessel) : gmap Z Vessel :=
  foldl applyOp m ops.

(** The records of a sequence of merges, in the order they are merged. *)
Definition mergedRecords (ops : list MergeOp) : list Vessel :=
  ops ≫= λ op, match op with Merge vessel => [vessel] | MergeMany vs => vs end.

(** The last record of a list that carries a given identifier. *)
Definition lastWith (k : Z) (vs : list Vessel) : option Vessel :=
  last (filter (λ vessel, mmsi vessel = k) vs).

End VesselContext.

(** ** [src/utils/geohash.ts], lines 1-51 *)
Module Geohash.

(** The [encode] function of the imported [ngeohash] package: latitude,
    longitude and number of characters to a geohash string.  The tiler is
    verified for every such function; [ngeohash_reference] below is the
    standard geohash encoding, for running examples. *)
Class NGeohash := ngeohash_encode : Q → Q → Z → string.

(** [encodeGeohash(latitude, longitude, precision = 5)]; an omitted
    argument is [None]. *)
Definition encodeGeohash `{NGeohash} (latitude longitude : Q)
    (precision : option Z) : string :=
  ngeohash_encode latitude longitude (default 5 precision).

(** [Set.prototype.add] on a set kept in insertion order, which is the
    order [Array.from] lists it in. *)
Definition Set_add (x : string) (s : list string) : list string :=
  if decide (x ∈ s) then s else s ++ [x].

(** The grid step of both loops, about 5 km. *)
Definition latStep : Q := 0.045%Q.
Definition lonStep : Q := 0.045%Q.

(** The guard of the loop body. *)
Definition inDomain (lat lon : Q) : bool :=
  Qle_bool (-90) lat && Qle_bool lat 90
  && Qle_bool (-180) lon && Qle_bool lon 180.

(** The inner loop [for (lon = ...; lon <= maxLon; lon += lonStep)].  One
    unit of [fuel] is spent per iteration; [None] means the fuel ran out
    before the loop condition failed. *)
Fixpoint lonLoop `{NGeohash} (fuel : nat) (lat lon maxLon : Q)
    (precision : Z) (geohashes : list string) : option (list string) :=
  if Qle_bool lon maxLon then
    match fuel with
    | O => None
    | S fuel' =>
        let geohashes' :=
          if inDomain lat lon
          then Set_add (encodeGeohash lat lon (Some precision)) geohashes
          else geohashes in
        lonLoop fuel' lat (lon + lonStep)%Q maxLon precision geohashes'
    end
  else Some geohashes.

(** The outer loop [for (lat = ...; lat <= maxLat; lat += latStep)]; every
    run of the inner loop gets the same amount of fuel. *)
Fixpoint latLoop `{NGeohash} (fuel innerFuel : nat)
    (lat minLon maxLon maxLat : Q) (precision : Z)
    (geohashes : list string) : option (list string) :=
  if Qle_bool lat maxLat then
    match fuel with
    | O => None
    | S fuel' =>
        match lonLoop innerFuel lat minLon maxLon precision geohashes with
        | Some geohashes' =>
            latLoop fuel' innerFuel (lat + latStep)%Q minLon maxLon maxLat
              precision geohashes'
        | None => None
        end
    end
  else Some geohashes.

(** [calculateGeohashes(minLon, minLat, maxLon, maxLat, precision = 5)]. *)
Definition calculateGeohashes `{NGeohash} (fuel : nat)
    (minLon minLat maxLon maxLat : Q) (precision : option Z)
  : option (list string) :=
  let precision := default 5 precision in
  let geohashes := [] in
  latLoop fuel fuel minLat minLon maxLon maxLat precision geohashes.

(** The number of iterations of a loop [for (x = lo; x <= hi; x += step)]. *)
Definition iterations (lo hi step : Q) : nat :=
  if Qle_bool lo hi then Z.to_nat (Qfloor ((hi - lo) / step) + 1) else 0%nat.

(** Fuel that suffices for a rectangle. *)
Definition enoughFuel (minLon minLat maxLon maxLat : Q) : nat :=
  Nat.max (iterations minLat maxLat latStep) (iterations minLon maxLon lonStep).

(** *** A reference encoder

    The standard geohash encoding: bits alternate between longitude and
    latitude, starting with longitude; each bit halves the current
    interval and is 1 when the coordinate lies above the midpoint; five
    bits make one character of the base-32 alphabet. *)

Definition BASE32_CODES : string := "0123456789bcdefghjkmnpqrstuvwxyz".

Record Cell : Type := mkCell {
  cellMinLat : Q; cellMaxLat : Q; cellMinLon : Q; cellMaxLon : Q
}.

(** One iteration of the bit loop: the new bit and the halved cell. *)
Definition refine (isLon : bool) (latitude longitude : Q) (c : Cell)
  : bool * Cell :=
  if isLon then
    let mid := Qred ((cellMaxLon c + cellMinLon c) / 2) in
    if Qle_bool longitude mid
    then (false, mkCell (cellMinLat c) (cellMaxLat c) (cellMinLon c) mid)
    else (true, mkCell (cellMinLat c) (cellMaxLat c) mid (cellMaxLon c))
  else
    let mid := Qred ((cellMaxLat c + cellMinLat c) / 2) in
    if Qle_bool latitude mid
    then (false, mkCell (cellMinLat c) mid (cellMinLon c) (cellMaxLon c))
    else (true, mkCell mid (cellMaxLat c) (cellMinLon c) (cellMaxLon c)).

Definition base32 (hash_value : Z) : string :=
  match get (Z.to_nat hash_value) BASE32_CODES with
  | Some code => String code EmptyString
  | None => EmptyString
  end.

(** [n] further bits: [bits] counts those of the current character and
    [hash_value] holds them. *)
Fixpoint encodeBits (n : nat) (isLon : bool) (bits hash_value : Z)
    (latitude longitude : Q) (c : Cell) : string :=
  match n with
  | O => EmptyString
  | S n' =>
      let '(bit, c') := refine isLon latitude longitude c in
      let hash_value' := Z.shiftl hash_value 1 + (if bit then 1 else 0) in
      let bits' := bits + 1 in
      if bits' =? 5
      then (base32 hash_value' +:+
              encodeBits n' (negb isLon) 0 0 latitude longitude c')%string
      else encodeBits n' (negb isLon) bits' hash_value' latitude longitude c'
  end.

Definition ngeohash_reference : NGeohash :=
  λ latitude longitude numberOfChars,
    encodeBits (Z.to_nat (5 * numberOfChars)) true 0 0 latitude longitude
      (mkCell (-90) 90 (-180) 180).

(** *** The sample grid

    The values a loop [for (x = lo; x <= hi; x += 0.045)] gives its
    variable, in order: [lo], [lo + 0.045], [(lo + 0.045) + 0.045], ... *)
Fixpoint gridFrom (n : nat) (x : Q) : list Q :=
  match n with
  | O => []
  | S n' => x :: gridFrom n' (x + latStep)%Q
  end.

Definition axis (lo hi : Q) : list Q := gridFrom (iterations lo hi latStep) lo.




End Geohash.

(** ** The map component ([src/utils/geohash.ts], from line 54) *)
Module VesselMap.
Import VesselContext.

(** Modelled from the spec: the result of [VesselApiService.fetchVessels],
    a service that is not among the sources; [fetchVessels] reads the three
    fields [vessels], [server_time] and [is_delta]. *)
Record Response : Type := mkResponse {
  resp_vessels : list Vessel;
  server_time : string;
  is_delta : bool
}.

(** The arguments of one call of [VesselApiService.fetchVessels]. *)
Record Request : Type := mkRequest {
  req_bbox : Bbox;
  req_zoom : Z;
  req_since : option string
}.

(** A [Bbox] object together with its identity: React compares the
    dependencies of a hook with [Object.is], which on objects is identity. *)
Record BboxObj : Type := mkBboxObj {
  obj_id : nat;
  obj_val : Bbox
}.

(** The [fetchVessels] callback of one render: the values of [bbox], [zoom]
    and [lastServerTime] its closure captured.  ([updateMultipleVessels] and
    the state setters, its other dependencies, never change.) *)
Record FetchVessels : Type := mkFetchVessels {
  cap_bbox : option BboxObj;
  cap_zoom : Q;
  cap_lastServerTime : option string
}.

(** What the dependency array [[bbox, zoom, fetchVessels, removeStaleVessels]]
    of the polling effect amounts to: [fetchVessels] changes exactly when
    [bbox], [zoom] or [lastServerTime] does, [removeStaleVessels] never. *)
Record Deps : Type := mkDeps {
  dep_bbox : option nat;
  dep_zoom : Q;
  dep_lastServerTime : option string
}.

Record State : Type := mkState {
  (** [useVessels()]: the state of the provider *)
  store : Store;
  (** the [useState] hooks of the component *)
  zoom : Q;
  bbox : option BboxObj;
  isLoading : bool;
  error : option string;
  (** [pollingIntervalRef.current] *)
  pollingIntervalRef : option nat;
  (** the runtime: the intervals that are set, each with the [fetchVessels]
      its callback captured; the next handle [setInterval] returns; the
      identity of the next object; the calls of the service not yet settled *)
  intervals : gmap nat FetchVessels;
  nextHandle : nat;
  nextObj : nat;
  pending : list Request;
  (** React's record of the polling effect: the dependencies of its last run
      and whether that run returned a cleanup function *)
  effectDeps : option Deps;
  effectCleanup : bool
}.

Definition set_store (f : Store → Store) (s : State) : State :=
  mkState (f (store s)) (zoom s) (bbox s) (isLoading s) (error s)
    (pollingIntervalRef s) (intervals s) (nextHandle s) (nextObj s)
    (pending s) (effectDeps s) (effectCleanup s).

Definition setZoom (z : Q) (s : State) : State :=
  mkState (store s) z (bbox s) (isLoading s) (error s)
    (pollingIntervalRef s) (intervals s) (nextHandle s) (nextObj s)
    (pending s) (effectDeps s) (effectCleanup s).

(** [setBbox(newBbox)] with a freshly allocated object. *)
Definition setBbox (b : Bbox) (s : State) : State :=
  mkState (store s) (zoom s) (Some (mkBboxObj (nextObj s) b)) (isLoading s)
    (error s) (pollingIntervalRef s) (intervals s) (nextHandle s)
    (S (nextObj s)) (pending s) (effectDeps s) (effectCleanup s).

Definition setIsLoading (b : bool) (s : State) : State :=
  mkState (store s) (zoom s) (bbox s) b (error s)
    (pollingIntervalRef s) (intervals s) (nextHandle s) (nextObj s)
    (pending s) (effectDeps s) (effectCleanup s).

Definition setError (e : option string) (s : State) : State :=
  mkState (store s) (zoom s) (bbox s) (isLoading s) e
    (pollingIntervalRef s) (intervals s) (nextHandle s) (nextObj s)
    (pending s) (effectDeps s) (effectCleanup s).

Definition set_pending (p : list Request) (s : State) : State :=
  mkState (store s) (zoom s) (bbox s) (isLoading s) (error s)
    (pollingIntervalRef s) (intervals s) (nextHandle s) (nextObj s)
    p (effectDeps s) (effectCleanup s).

(** [clearInterval(h); pollingIntervalRef.current = null]. *)
Definition clearPolling (h : nat) (s : State) : State :=
  mkState (store s) (zoom s) (bbox s) (isLoading s) (error s)
    None (delete h (intervals s)) (nextHandle s) (nextObj s)
    (pending s) (effectDeps s) (effectCleanup s).

(** [pollingIntervalRef.current = setInterval(callback, POLL_INTERVAL_MS)],
    the callback calling [f]. *)
Definition startPolling (f : FetchVessels) (s : State) : State :=
  mkState (store s) (zoom s) (bbox s) (isLoading s) (error s)
    (Some (nextHandle s)) (<[nextHandle s := f]> (intervals s))
    (S (nextHandle s)) (nextObj s)
    (pending s) (effectDeps s) (effectCleanup s).

Definition set_effect (d : option Deps) (c : bool) (s : State) : State :=
  mkState (store s) (zoom s) (bbox s) (isLoading s) (error s)
    (pollingIntervalRef s) (intervals s) (nextHandle s) (nextObj s)
    (pending s) d c.

(** [x < y] on numbers. *)
Definition Qltb (x y : Q) : bool := negb (Qle_bool y x).

(** [Math.round]: the nearest integer, halves rounded up. *)
Definition Math_round (x : Q) : Z := Qfloor (x + (1 # 2))%Q.

(** [lastServerTime || undefined]: [null] and the empty string are falsy. *)
Definition orUndefined (t : option string) : option string :=
  match t with
  | Some EmptyString => None
  | _ => t
  end.

(** *** [fetchVessels]

    The function is asynchronous.  [fetchVessels_call] is its run up to the
    [await]: the guard, the two state updates and the call of the service,
    which joins the pending calls.  [fetchVessels_resolved] and
    [fetchVessels_rejected] are its run from the [await] on, when the
    service resolves with a response or rejects. *)

Definition fetchVessels_call (f : FetchVessels) (s : State) : State :=
  match cap_bbox f with
  | None => s
  | Some b =>
      if Qltb (cap_zoom f) Config.MIN_ZOOM_LEVEL then s
      else
        let s := setIsLoading true s in
        let s := setError None s in
        set_pending
          (pending s ++
            [mkRequest (obj_val b) (Math_round (cap_zoom f))
               (orUndefined (cap_lastServerTime f))]) s
  end.

Definition fetchVessels_resolved (response : Response) (s : State) : State :=
  let s :=
    if (0 <? length (resp_vessels response))%nat
    then set_store (setVessels (updateMultipleVessels (resp_vessels response))) s
    else s in
  let s := set_store (setLastServerTime (server_time response)) s in
  setIsLoading false s.

Definition fetchVessels_rejected (s : State) : State :=
  let s := setError (Some "Failed to fetch vessels"%string) s in
  setIsLoading false s.

(** *** [handleRegionDidChange]

    [bounds] and [currentZoom] are what the map view answers; [None] is
    [undefined].  A zoom of 0 is falsy too.  The three state updates that
    follow are applied together. *)
Definition handleRegionDidChange (bounds : option ((Q * Q) * (Q * Q)))
    (currentZoom : option Q) (s : State) : State :=
  match bounds, currentZoom with
  | Some bounds, Some currentZoom =>
      if Qeq_bool currentZoom 0 then s
      else
        let s := setZoom currentZoom s in
        let newBbox :=
          {| minLon := bounds.1.1; minLat := bounds.1.2;
             maxLon := bounds.2.1; maxLat := bounds.2.2 |} in
        let s := setBbox newBbox s in
        if Qltb currentZoom Config.MIN_ZOOM_LEVEL
        then set_store clearAll s
        else s
  | _, _ => s
  end.

(** *** The polling effect *)

(** The [fetchVessels] of the current render. *)
Definition currentFetchVessels (s : State) : FetchVessels :=
  mkFetchVessels (bbox s) (zoom s) (lastServerTime (store s)).

(** The body of the effect. *)
Definition pollingEffect (s : State) : State :=
  if Qltb (zoom s) Config.MIN_ZOOM_LEVEL || bool_decide (bbox s = None) then
    let s :=
      match pollingIntervalRef s with
      | Some h => clearPolling h s
      | None => s
      end in
    set_effect (effectDeps s) false s
  else
    let f := currentFetchVessels s in
    let s := fetchVessels_call f s in
    let s := startPolling f s in
    set_effect (effectDeps s) true s.

(** The cleanup function the effect returns when it started an interval. *)
Definition pollingCleanup (s : State) : State :=
  match pollingIntervalRef s with
  | Some h => clearPolling h s
  | None => s
  end.

Definition depsOf (s : State) : Deps :=
  mkDeps (obj_id <$> bbox s) (zoom s) (lastServerTime (store s)).

Definition sameDeps (a b : Deps) : bool :=
  bool_decide (dep_bbox a = dep_bbox b)
  && Qeq_bool (dep_zoom a) (dep_zoom b)
  && bool_decide (dep_lastServerTime a = dep_lastServerTime b).

(** A render followed by React's handling of the effect: when a dependency
    changed since its last run, the cleanup of that run, if any, then the
    body. *)
Definition render (s : State) : State :=
  let deps := depsOf s in
  match effectDeps s with
  | Some old =>
      if sameDeps old deps then s
      else
        let s := if effectCleanup s then pollingCleanup s else s in
        pollingEffect (set_effect (Some deps) (effectCleanup s) s)
  | None => pollingEffect (set_effect (Some deps) (effectCleanup s) s)
  end.

(** The callback of the interval: [fetchVessels(); removeStaleVessels()].
    [now] is what [Date.now()] returns. *)
Definition intervalCallback `{JsDate} (f : FetchVessels) (now : Z) (s : State)
  : State :=
  let s := fetchVessels_call f s in
  set_store (setVessels (removeStaleVessels now)) s.

(** *** The component as a transition system *)

Inductive Event : Type :=
| RegionDidChange (bounds : option ((Q * Q) * (Q * Q))) (currentZoom : option Q)
| IntervalTick (h : nat) (now : Z)
| FetchResolved (i : nat) (response : Response)
| FetchRejected (i : nat).

(** The handler of an event, before React renders again. *)
Definition handle `{JsDate} (e : Event) (s : State) : State :=
  match e with
  | RegionDidChange bounds currentZoom =>
      handleRegionDidChange bounds currentZoom s
  | IntervalTick h now =>
      match intervals s !! h with
      | Some f => intervalCallback f now s
      | None => s
      end
  | FetchResolved i response =>
      match pending s !! i with
      | Some _ => fetchVessels_resolved response (set_pending (delete i (pending s)) s)
      | None => s
      end
  | FetchRejected i =>
      match pending s !! i with
      | Some _ => fetchVessels_rejected (set_pending (delete i (pending s)) s)
      | None => s
      end
  end.

Definition step `{JsDate} (s : State) (e : Event) : State := render (handle e s).

Definition run `{JsDate} (es : list Event) (s : State) : State := foldl step s es.

(** The component before its first render, and mounted. *)
Definition unmounted : State :=
  mkState VesselContext.initial Config.DEFAULT_MAP_ZOOM None false None
    None ∅ 0%nat 0%nat [] None false.

Definition mounted : State := render unmounted.

(** The states the component can be in. *)
Definition reachable `{JsDate} (s : State) : Prop :=
  ∃ es : list Event, s = run es mounted.

(** The controller is Active: a viewport is known and the zoom is at or
    above the threshold. *)
Definition active (s : State) : Prop :=
  is_Some (bbox s) ∧ (Config.MIN_ZOOM_LEVEL <= zoom s)%Q.

(** The condition under which the effect stops polling. *)
Definition inactiveView (s : State) : bool :=
  Qltb (zoom s) Config.MIN_ZOOM_LEVEL || bool_decide (bbox s = None).

(** A run of the effect that React decided on: cleanup, then body. *)
Definition rerun (s : State) : State :=
  let deps := depsOf s in
  let s := if effectCleanup s then pollingCleanup s else s in
  pollingEffect (set_effect (Some deps) (effectCleanup s) s).

(** *** Invariants of the reachable states *)

(** Object identities are fresh, and the only interval set, if any, is the
    one [pollingIntervalRef] holds, whose effect returned a cleanup. *)
Definition structural (s : State) : Prop :=
  (∀ o, bbox s = Some o → (obj_id o < nextObj s)%nat)
  ∧ match pollingIntervalRef s with
    | Some h =>
        (h < nextHandle s)%nat ∧ effectCleanup s = true
        ∧ ∃ f, intervals s = {[h := f]}
    | None => intervals s = ∅
    end.

(** The effect has run for the current dependencies, and an interval is set
    exactly when the view is active. *)
Definition settled (s : State) : Prop :=
  (∃ d, effectDeps s = Some d ∧ sameDeps d (depsOf s) = true)
  ∧ inactiveView s = bool_decide (pollingIntervalRef s = None).

Definition wf (s : State) : Prop := structural s ∧ settled s.

(** The fields of the timer and of the effect, which no handler writes, and
    those of the view. *)
Definition sameTimer (s s' : State) : Prop :=
  pollingIntervalRef s' = pollingIntervalRef s
  ∧ intervals s' = intervals s
  ∧ nextHandle s' = nextHandle s
  ∧ effectDeps s' = effectDeps s
  ∧ effectCleanup s' = effectCleanup s.

Definition sameView (s s' : State) : Prop :=
  zoom s' = zoom s ∧ bbox s' = bbox s ∧ nextObj s' = nextObj s.

(** The [fetchVessels] an interval calls captured the values the component
    has now. *)
Definition closureFresh (s : State) : Prop :=
  ∀ h f, intervals s !! h = Some f →
    cap_bbox f = bbox s ∧ (cap_zoom f == zoom s)%Q
    ∧ cap_lastServerTime f = lastServerTime (store s).

(** A request the service may be sent: a zoom of at least 12 and a [since]
    that is absent or not empty. *)
Definition goodRequest (r : Request) : Prop :=
  12 <= req_zoom r ∧ req_since r ≠ Some EmptyString.

(** Every vessel of a map sits under its own identifier. *)
Definition keyed (m : gmap Z Vessel) : Prop :=
  ∀ k v, m !! k = Some v → mmsi v = k.

(** *** [vesselGeoJSON] *)

(** A feature of the collection: [id], the [coordinates] of its point
    geometry (longitude first) and the properties. *)
Record Feature : Type := mkFeature {
  feat_id : Z;
  feat_coordinates : Q * Q;
  prop_mmsi : Z;
  prop_course : Q;
  prop_speed : Q;
  prop_ship_type : Z;
  prop_last_updated : string
}.

(** The function mapped over the vessels; [x ?? 0] is [default 0 x]. *)
Definition toFeature (vessel : Vessel) : Feature :=
  {| feat_id := mmsi vessel;
     feat_coordinates := (longitude vessel, latitude vessel);
     prop_mmsi := mmsi vessel;
     prop_course := default 0%Q (course vessel);
     prop_speed := default 0%Q (speed vessel);
     prop_ship_type := default 0 (ship_type vessel);
     prop_last_updated := last_updated vessel |}.

(** The [features] of [vesselGeoJSON]: [Array.from(vessels.values())]
    mapped to features.  They are listed in the order of [map_to_list],
    not in the insertion order of the JavaScript map. *)
Definition vesselGeoJSON (vessels : gmap Z Vessel) : list Feature :=
  toFeature <$> (map_to_list vessels).*2.

End VesselMap.

(** ** A date parser for running examples

    [iso8601_getTime] reads the UTC form [YYYY-MM-DDTHH:mm:ss(.sss)Z] of the
    ECMAScript date-time string format and answers [None] (the [NaN] of
    [getTime]) for every other string.  It instantiates [JsDate] in the
    examples; no general statement depends on it. *)
Module Iso8601.

Definition digitValue (c : ascii) : option Z :=
  let n := Z.of_N (N_of_ascii c) in
  if (48 <=? n) && (n <=? 57) then Some (n - 48) else None.

(** Reads exactly [n] decimal digits. *)
Fixpoint readDigits (n : nat) (acc : Z) (s : string) : option (Z * string) :=
  match n with
  | O => Some (acc, s)
  | S n' =>
      match s with
      | String c s' => d ← digitValue c; readDigits n' (10 * acc + d) s'
      | EmptyString => None
      end
  end.

Definition expect (c : ascii) (s : string) : option string :=
  match s with
  | String c' s' => if decide (c = c') then Some s' else None
  | EmptyString => None
  end.

Definition isLeapYear (y : Z) : bool :=
  (y mod 4 =? 0) && (negb (y mod 100 =? 0) || (y mod 400 =? 0)).

Definition daysInMonth (y m : Z) : Z :=
  if m =? 2 then (if isLeapYear y then 29 else 28)
  else if (m =? 4) || (m =? 6) || (m =? 9) || (m =? 11) then 30
  else 31.

(** Days from 1970-01-01 to the given day of the proleptic Gregorian
    calendar. *)
Definition daysFromCivil (y m d : Z) : Z :=
  let y := if m <=? 2 then y - 1 else y in
  let era := y / 400 in
  let yoe := y - era * 400 in
  let mp := (m + 9) mod 12 in
  let doy := (153 * mp + 2) / 5 + d - 1 in
  let doe := yoe * 365 + yoe / 4 - yoe / 100 + doy in
  era * 146097 + doe - 719468.

(** An optional fraction of three digits. *)
Definition readMillis (s : string) : option (Z * string) :=
  match s with
  | String "."%char s' => readDigits 3 0 s'
  | _ => Some (0, s)
  end.

Definition inRange (lo x hi : Z) : bool := (lo <=? x) && (x <=? hi).

Definition iso8601_getTime : JsDate := λ s,
  '(y, s) ← readDigits 4 0 s;
  s ← expect "-" s;
  '(mo, s) ← readDigits 2 0 s;
  s ← expect "-" s;
  '(d, s) ← readDigits 2 0 s;
  s ← expect "T" s;
  '(hh, s) ← readDigits 2 0 s;
  s ← expect ":" s;
  '(mm, s) ← readDigits 2 0 s;
  s ← expect ":" s;
  '(ss, s) ← readDigits 2 0 s;
  '(ms, s) ← readMillis s;
  s ← expect "Z" s;
  if inRange 1 mo 12 && inRange 1 d (daysInMonth y mo) && inRange 0 hh 23
     && inRange 0 mm 59 && inRange 0 ss 59 && bool_decide (s = EmptyString)
  then Some ((((daysFromCivil y mo d * 24 + hh) * 60 + mm) * 60 + ss) * 1000 + ms)
  else None.

End Iso8601.

(** ** The scenarios of the specification *)
Module Scenario.

(** [{mmsi:100, lat:10, lon:20, last_updated:"2024-01-01T00:00:10Z"}]. *)
Definition vessel100 : Vessel :=
  {| mmsi := 100; latitude := 10; longitude := 20;
     course := None; speed := None; ship_type := None;
     last_updated := "2024-01-01T00:00:10Z" |}.

(** A record whose timestamp is not a date. *)
Definition vessel200 : Vessel :=
  {| mmsi := 200; latitude := 11; longitude := 21;
     course := None; speed := None; ship_type := None;
     last_updated := "not a date" |}.

(** The store after merging [vessel100] into the empty store. *)
Definition store100 : gmap Z Vessel :=
  VesselContext.updateVessel vessel100 ∅.

Definition viewport1 : (Q * Q) * (Q * Q) :=
  ((-122.5, 37.7), (-122.3, 37.8))%Q.

Definition viewport2 : (Q * Q) * (Q * Q) :=
  ((-123, 37), (-122, 38))%Q.

Definition response100 : VesselMap.Response :=
  {| VesselMap.resp_vessels := [vessel100];
     VesselMap.server_time := "2024-01-01T00:00:20Z";
     VesselMap.is_delta := false |}.

End Scenario.

(** * Properties *)

(** ** The vessel store *)
Module VesselContextProofs.
Import VesselContext.

Lemma lastWith_snoc (k : Z) (vs : list Vessel) (v : Vessel) :
  lastWith k (vs ++ [v]) = if decide (mmsi v = k) then Some v else lastWith k vs.
Proof.
  unfold lastWith. rewrite filter_app, filter_cons, filter_nil.
  destruct (decide (mmsi v = k)).
  - by rewrite last_snoc.
  - by rewrite app_nil_r.
Qed.

Lemma lastWith_app (k : Z) (vs ws : list Vessel) :
  lastWith k (vs ++ ws) =
  match lastWith k ws with Some v => Some v | None => lastWith k vs end.
Proof.
  induction ws as [|w ws IH] using rev_ind.
  - by rewrite app_nil_r.
  - rewrite app_assoc, !lastWith_snoc. by destruct (decide (mmsi w = k)).
Qed.

Lemma lastWith_mmsi (k : Z) (vs : list Vessel) (v : Vessel) :
  lastWith k vs = Some v → mmsi v = k.
Proof.
  unfold lastWith. intros Hlast. apply last_Some_elem_of in Hlast.
  by apply list_elem_of_filter in Hlast as [? _].
Qed.

(** What a bulk merge leaves under a key: the last record of the array with
    that identifier, and the previous entry when there is none. *)
Lemma lookup_updateMultipleVessels (vs : list Vessel) (m : gmap Z Vessel) (k : Z) :
  updateMultipleVessels vs m !! k =
  match lastWith k vs with Some v => Some v | None => m !! k end.
Proof.
  unfold updateMultipleVessels. induction vs as [|v vs IH] using rev_ind.
  - done.
  - rewrite foldl_app, lastWith_snoc. simpl.
    rewrite lookup_insert. destruct (decide (mmsi v = k)); [done | apply IH].
Qed.

Lemma lookup_applyOp (op : MergeOp) (m : gmap Z Vessel) (k : Z) :
  applyOp m op !! k =
  match lastWith k (mergedRecords [op]) with Some v => Some v | None => m !! k end.
Proof.
  destruct op as [v | vs]; simpl.
  - unfold updateVessel, mergedRecords, lastWith. simpl.
    rewrite filter_cons, filter_nil, lookup_insert.
    by destruct (decide (mmsi v = k)).
  - unfold mergedRecords. simpl. rewrite app_nil_r.
    apply lookup_updateMultipleVessels.
Qed.

Lemma lookup_applyOps (ops : list MergeOp) (m : gmap Z Vessel) (k : Z) :
  applyOps ops m !! k =
  match lastWith k (mergedRecords ops) with Some v => Some v | None => m !! k end.
Proof.
  unfold applyOps. induction ops as [|op ops IH] using rev_ind.
  - done.
  - rewrite foldl_app. simpl. rewrite lookup_applyOp.
    unfold mergedRecords in *. rewrite bind_app, lastWith_app.
    destruct (lastWith k ([op] ≫= _)); [done | apply IH].
Qed.

(** Every entry built by merges into the empty store sits under its own
    identifier. *)
Lemma applyOps_keyed (ops : list MergeOp) (k : Z) (v : Vessel) :
  applyOps ops ∅ !! k = Some v → mmsi v = k.
Proof.
  rewrite lookup_applyOps, lookup_empty.
  destruct (lastWith k (mergedRecords ops)) as [w|] eqn:Hw; [|done].
  intros [= <-]. by eapply lastWith_mmsi.
Qed.

(** C2. For every sequence of [merge] and [mergeMany] operations applied to
    the empty store, no two records of the resulting map carry the same
    identifier, and under every identifier the map holds the last record
    merged with that identifier, whatever the timestamps of the records
    (none is looked at). *)
Theorem merges_replace_by_key (ops : list MergeOp) :
  let m := applyOps ops ∅ in
  NoDup (mmsi <$> (map_to_list m).*2)
  ∧ (∀ k v, m !! k = Some v → mmsi v = k)
  ∧ (∀ k, m !! k = lastWith k (mergedRecords ops)).
Proof.
  intros m. split; [|split].
  - replace (mmsi <$> (map_to_list m).*2) with ((map_to_list m).*1).
    + apply NoDup_fst_map_to_list.
    + rewrite <- list_fmap_compose. apply list_fmap_ext.
      intros i [k v] Hkv. simpl. symmetry.
      apply (applyOps_keyed ops), elem_of_map_to_list.
      by eapply list_elem_of_lookup_2.
  - apply applyOps_keyed.
  - intros k. subst m. rewrite lookup_applyOps, lookup_empty.
    by destruct (lastWith k (mergedRecords ops)).
Qed.

(** C10. A bulk merge of the empty array leaves the content of the store as
    it was: the same map, so the same entry under every identifier, and the
    same cursor. *)
Theorem updateMultipleVessels_nil (s : Store) :
  updateMultipleVessels [] (vessels s) = vessels s
  ∧ (∀ k, updateMultipleVessels [] (vessels s) !! k = vessels s !! k)
  ∧ setVessels (updateMultipleVessels []) s = s.
Proof.
  split; [done | split; [done |]]. by destruct s.
Qed.

Section Sweep.
Context `{JsDate}.

(** What a sweep leaves under a key. *)
Lemma lookup_sweep (staleThreshold : Z) (m : gmap Z Vessel) (k : Z) :
  sweep staleThreshold m !! k =
  v ← m !! k; if newerThan staleThreshold v then Some v else None.
Proof.
  unfold sweep. revert k.
  apply (map_fold_weak_ind (λ (r m : gmap Z Vessel), ∀ k,
    r !! k = v ← m !! k; if newerThan staleThreshold v then Some v else None)).
  - intros k. by rewrite !lookup_empty.
  - intros i x m' r Hfresh IH k.
    destruct (decide (i = k)) as [->|Hne].
    + rewrite lookup_insert_eq. simpl.
      destruct (newerThan staleThreshold x).
      * by rewrite lookup_insert_eq.
      * rewrite IH, Hfresh. done.
    + rewrite (lookup_insert_ne m') by done.
      destruct (newerThan staleThreshold x); [|apply IH].
      rewrite lookup_insert_ne by done. apply IH.
Qed.

Lemma newerThan_true (staleThreshold : Z) (v : Vessel) :
  newerThan staleThreshold v = true ↔
  ∃ t, Date_getTime (last_updated v) = Some t ∧ staleThreshold < t.
Proof.
  unfold newerThan. destruct (Date_getTime (last_updated v)) as [t|].
  - rewrite bool_decide_eq_true. split.
    + intros Ht. exists t. split; [done | lia].
    + intros (t' & [= <-] & Ht). lia.
  - split; [done | by intros (t & ? & _)].
Qed.

Lemma lookup_sweep_Some (staleThreshold : Z) (m : gmap Z Vessel) (k : Z) (v : Vessel) :
  sweep staleThreshold m !! k = Some v ↔
  m !! k = Some v ∧ newerThan staleThreshold v = true.
Proof.
  rewrite lookup_sweep. destruct (m !! k) as [w|]; simpl.
  - destruct (newerThan staleThreshold w) eqn:Hw; split.
    + by intros [= <-].
    + by intros [[= <-] _].
    + done.
    + intros [[= <-] Hv]. congruence.
  - split; [done | by intros [? _]].
Qed.

(** The survivors of a sweep: the entries whose timestamp parses to a time
    strictly less than [timeout] before [now]. *)
Lemma lookup_evictStale_Some (now timeout : Z) (m : gmap Z Vessel) (k : Z) (v : Vessel) :
  evictStale now timeout m !! k = Some v ↔
  m !! k = Some v
  ∧ ∃ t, Date_getTime (last_updated v) = Some t ∧ now - t < timeout.
Proof.
  unfold evictStale. simpl. rewrite lookup_sweep_Some, newerThan_true.
  split; intros [Hk (t & Ht & Hlt)]; (split; [done | exists t; split; [done | lia]]).
Qed.

End Sweep.

Import Iso8601 Scenario.

(** C3, as stated, fails at the boundary.  The scenario's record was last
    updated at 00:00:10; at 00:02:10, with the timeout of 120000 ms, it is
    exactly [timeout] old, so [now - last_updated <= timeout] holds, and the
    sweep drops it all the same. *)
Lemma evictStale_at_timeout_counterexample :
  let now := 1704067330000 in
  iso8601_getTime "2024-01-01T00:02:10Z" = Some now
  ∧ ¬ (evictStale (H := iso8601_getTime) now 120000 store100 !! 100 = Some vessel100
       ↔ store100 !! 100 = Some vessel100
         ∧ ∃ t, iso8601_getTime (last_updated vessel100) = Some t
                ∧ now - t <= 120000).
Proof.
  split; [reflexivity |]. intros [_ Hretained].
  assert (evictStale (H := iso8601_getTime) 1704067330000 120000 store100 !! 100
          = None) as Hgone by (vm_compute; reflexivity).
  rewrite Hretained in Hgone; [discriminate |].
  split; [vm_compute; reflexivity |].
  exists 1704067210000. split; [vm_compute; reflexivity | lia].
Qed.

(** C3, amended.  For every store, time [now] and timeout, the sweep keeps
    exactly the entries whose timestamp parses and satisfies
    [now - parse(last_updated) < timeout], strictly; [removeStaleVessels] is
    the sweep with the configured timeout of 120000 ms.  The scenario's
    record, last updated at 00:00:10, is kept at 00:02:00 (110 s), dropped
    at 00:02:15 (125 s), and dropped at 00:02:10 (exactly 120 s). *)
Theorem evictStale_keeps_strictly_newer :
  (∀ (D : JsDate) (now timeout : Z) (m : gmap Z Vessel) (k : Z) (v : Vessel),
     evictStale now timeout m !! k = Some v ↔
     m !! k = Some v
     ∧ ∃ t, Date_getTime (last_updated v) = Some t ∧ now - t < timeout)
  ∧ (∀ (D : JsDate) (now : Z) (m : gmap Z Vessel),
       removeStaleVessels now m = evictStale now 120000 m)
  ∧ (iso8601_getTime "2024-01-01T00:02:00Z" = Some 1704067320000
     ∧ evictStale (H := iso8601_getTime) 1704067320000 120000 store100
       = store100)
  ∧ (iso8601_getTime "2024-01-01T00:02:15Z" = Some 1704067335000
     ∧ evictStale (H := iso8601_getTime) 1704067335000 120000 store100 = ∅)
  ∧ (iso8601_getTime "2024-01-01T00:02:10Z" = Some 1704067330000
     ∧ evictStale (H := iso8601_getTime) 1704067330000 120000 store100 = ∅).
Proof.
  split; [|split].
  - intros D now timeout m k v. apply lookup_evictStale_Some.
  - reflexivity.
  - repeat split; vm_compute; reflexivity.
Qed.

(** The two sweep times the specification's scenario writes down are 115 s
    and 100 s after the record's timestamp, not 125 s and 110 s: the record
    is kept at both. *)
Example evictStale_scenario_literal :
  (iso8601_getTime "2024-01-01T00:02:05Z" = Some 1704067325000
   ∧ 1704067325000 - 1704067210000 = 115000
   ∧ evictStale (H := iso8601_getTime) 1704067325000 120000 store100 = store100)
  ∧ (iso8601_getTime "2024-01-01T00:01:50Z" = Some 1704067310000
     ∧ 1704067310000 - 1704067210000 = 100000
     ∧ evictStale (H := iso8601_getTime) 1704067310000 120000 store100 = store100).
Proof. repeat split; vm_compute; reflexivity. Qed.

(** C7. An entry whose [last_updated] does not parse is dropped by every
    sweep, whatever the time and the timeout: its key is absent from the
    snapshot the sweep produces. *)
Theorem evictStale_drops_unparsable `{JsDate}
    (now timeout : Z) (m : gmap Z Vessel) (k : Z) (v : Vessel) :
  m !! k = Some v →
  Date_getTime (last_updated v) = None →
  evictStale now timeout m !! k = None
  ∧ removeStaleVessels now m !! k = None.
Proof.
  intros Hk Hparse.
  assert (∀ th, sweep th m !! k = None) as Hsweep.
  { intros th. rewrite lookup_sweep, Hk. simpl.
    unfold newerThan. by rewrite Hparse. }
  split; apply Hsweep.
Qed.

Lemma evictStale_drops_unparsable_witness :
  let m := updateMultipleVessels [vessel100; vessel200] ∅ in
  evictStale (H := iso8601_getTime) 1704067220000 120000 m !! 200 = None
  ∧ removeStaleVessels (H := iso8601_getTime) 1704067220000 m !! 200 = None.
Proof.
  apply (evictStale_drops_unparsable (H := iso8601_getTime)
           1704067220000 120000 _ 200 vessel200).
  - vm_compute. reflexivity.
  - vm_compute. reflexivity.
Defined.

(** C8. Eviction is monotone in the sweep time: with the same store and
    timeout, every identifier that survives the sweep at [t2] survives the
    sweep at an earlier time [t1]. *)
Theorem evictStale_monotone `{JsDate}
    (t1 t2 timeout : Z) (m : gmap Z Vessel) :
  t1 < t2 →
  dom (evictStale t2 timeout m) ⊆ dom (evictStale t1 timeout m)
  ∧ dom (removeStaleVessels t2 m) ⊆ dom (removeStaleVessels t1 m).
Proof.
  intros Hlt.
  assert (∀ timeout',
    dom (evictStale t2 timeout' m) ⊆ dom (evictStale t1 timeout' m)) as Hmono.
  { intros timeout' k. rewrite !elem_of_dom. intros [v Hv].
    exists v. apply lookup_evictStale_Some in Hv as [Hk (t & Ht & Hnew)].
    apply lookup_evictStale_Some. split; [done |].
    exists t. split; [done | lia]. }
  split; [apply Hmono |].
  apply (Hmono Config.STALE_VESSEL_TIMEOUT_MS).
Qed.

Lemma evictStale_monotone_witness :
  let m := updateMultipleVessels [vessel100; vessel200] ∅ in
  dom (evictStale (H := iso8601_getTime) 1704067335000 120000 m)
  ⊆ dom (evictStale (H := iso8601_getTime) 1704067320000 120000 m)
  ∧ dom (removeStaleVessels (H := iso8601_getTime) 1704067335000 m)
    ⊆ dom (removeStaleVessels (H := iso8601_getTime) 1704067320000 m).
Proof.
  intros m.
  apply (evictStale_monotone (H := iso8601_getTime)
           1704067320000 1704067335000 120000 m).
  lia.
Defined.

End VesselContextProofs.

(** ** The geohash tiler *)
Module GeohashProofs.
Import Geohash.

Lemma Qle_bool_false (x y : Q) : Qle_bool x y = false ↔ (y < x)%Q.
Proof.
  split.
  - intros Hb. apply Qnot_le_lt. intros Hle.
    apply Qle_bool_iff in Hle. congruence.
  - intros Hlt. destruct (Qle_bool x y) eqn:Hb; [|done].
    apply Qle_bool_iff in Hb. lra.
Qed.

(** An iteration of a loop uses up one of the iterations counted for it. *)
Lemma iterations_step (lo hi : Q) :
  Qle_bool lo hi = true →
  (iterations (lo + latStep) hi latStep < iterations lo hi latStep)%nat.
Proof.
  intros Hle. unfold iterations. rewrite Hle.
  apply Qle_bool_iff in Hle.
  assert (0 <= Qfloor ((hi - lo) / latStep))%Z as Hfloor.
  { rewrite <- (Qfloor_Z 0). apply Qfloor_resp_le.
    unfold Qdiv, latStep. change (/ 0.045)%Q with (1000 # 45)%Q.
    change (inject_Z 0) with 0%Q. lra. }
  destruct (Qle_bool (lo + latStep) hi) eqn:Hnext; [|lia].
  apply Qle_bool_iff in Hnext.
  assert (0 <= Qfloor ((hi - (lo + latStep)) / latStep))%Z as Hfloor'.
  { rewrite <- (Qfloor_Z 0). apply Qfloor_resp_le.
    unfold Qdiv, latStep in *. change (/ 0.045)%Q with (1000 # 45)%Q.
    change (inject_Z 0) with 0%Q. lra. }
  assert (Qfloor ((hi - (lo + latStep)) / latStep)
          < Qfloor ((hi - lo) / latStep))%Z as Hlt.
  { rewrite Zlt_Qlt.
    eapply Qle_lt_trans; [apply Qfloor_le |].
    pose proof (Qlt_floor ((hi - lo) / latStep)) as Hup.
    rewrite inject_Z_plus in Hup. change (inject_Z 1) with 1%Q in Hup.
    assert ((hi - (lo + latStep)) / latStep == (hi - lo) / latStep - 1)%Q
      as -> by (unfold latStep; field).
    lra. }
  lia.
Qed.

(** With fuel for the counted iterations, the inner loop ends by its
    condition, and more fuel does not change what it returns. *)
Lemma lonLoop_total `{NGeohash} (n : nat) :
  ∀ (lat lon maxLon : Q) (precision : Z) (acc : list string),
    (iterations lon maxLon lonStep ≤ n)%nat →
    ∃ r, ∀ fuel, (n ≤ fuel)%nat →
      lonLoop fuel lat lon maxLon precision acc = Some r.
Proof.
  induction n as [|n IH]; intros lat lon maxLon precision acc Hn.
  - destruct (Qle_bool lon maxLon) eqn:Hle.
    + pose proof (iterations_step lon maxLon Hle) as Hpos.
      change latStep with lonStep in Hpos. lia.
    + exists acc. intros fuel _. destruct fuel; simpl; by rewrite Hle.
  - destruct (Qle_bool lon maxLon) eqn:Hle.
    + pose proof (iterations_step lon maxLon Hle) as Hpos.
      change latStep with lonStep in Hpos.
      edestruct (IH lat (lon + lonStep)%Q maxLon precision) as [r Hr]; [lia |].
      exists r. intros [|fuel] Hfuel; [lia |].
      simpl. rewrite Hle. apply Hr. lia.
    + exists acc. intros fuel _. destruct fuel; simpl; by rewrite Hle.
Qed.

Lemma latLoop_total `{NGeohash} (n : nat) :
  ∀ (lat minLon maxLon maxLat : Q) (precision : Z) (acc : list string),
    (iterations lat maxLat latStep ≤ n)%nat →
    ∃ r, ∀ fuel innerFuel,
      (n ≤ fuel)%nat → (iterations minLon maxLon lonStep ≤ innerFuel)%nat →
      latLoop fuel innerFuel lat minLon maxLon maxLat precision acc = Some r.
Proof.
  induction n as [|n IH]; intros lat minLon maxLon maxLat precision acc Hn.
  - destruct (Qle_bool lat maxLat) eqn:Hle.
    + pose proof (iterations_step lat maxLat Hle). lia.
    + exists acc. intros fuel innerFuel _ _. destruct fuel; simpl; by rewrite Hle.
  - destruct (Qle_bool lat maxLat) eqn:Hle.
    + pose proof (iterations_step lat maxLat Hle) as Hpos.
      destruct (lonLoop_total (iterations minLon maxLon lonStep)
                  lat minLon maxLon precision acc) as [acc' Hacc']; [lia |].
      edestruct (IH (lat + latStep)%Q minLon maxLon maxLat precision acc')
        as [r Hr]; [lia |].
      exists r. intros [|fuel] innerFuel Hfuel Hinner; [lia |].
      simpl. rewrite Hle, Hacc' by done. apply Hr; [lia | done].
    + exists acc. intros fuel innerFuel _ _. destruct fuel; simpl; by rewrite Hle.
Qed.

(** [calculateGeohashes] returns: from [enoughFuel] on, the loops end by
    their conditions and the result no longer depends on the fuel. *)
Lemma calculateGeohashes_total `{NGeohash}
    (minLon minLat maxLon maxLat : Q) (precision : option Z) :
  ∃ r, ∀ fuel, (enoughFuel minLon minLat maxLon maxLat ≤ fuel)%nat →
    calculateGeohashes fuel minLon minLat maxLon maxLat precision = Some r.
Proof.
  unfold calculateGeohashes, enoughFuel.
  destruct (latLoop_total (iterations minLat maxLat latStep)
              minLat minLon maxLon maxLat (default 5 precision) [])
    as [r Hr]; [lia |].
  exists r. intros fuel Hfuel. apply Hr; lia.
Qed.

Lemma lonLoop_exit `{NGeohash} (fuel : nat) (lat lon maxLon : Q)
    (precision : Z) (acc : list string) :
  Qle_bool lon maxLon = false →
  lonLoop fuel lat lon maxLon precision acc = Some acc.
Proof. intros Hle. destruct fuel; simpl; by rewrite Hle. Qed.

Lemma latLoop_exit `{NGeohash} (fuel innerFuel : nat)
    (lat minLon maxLon maxLat : Q) (precision : Z) (acc : list string) :
  Qle_bool lat maxLat = false →
  latLoop fuel innerFuel lat minLon maxLon maxLat precision acc = Some acc.
Proof. intros Hle. destruct fuel; simpl; by rewrite Hle. Qed.

Lemma inDomain_true (lat lon : Q) :
  inDomain lat lon = true ↔
  (-90 <= lat)%Q ∧ (lat <= 90)%Q ∧ (-180 <= lon)%Q ∧ (lon <= 180)%Q.
Proof.
  unfold inDomain. rewrite !andb_true_iff, !Qle_bool_iff. tauto.
Qed.

Lemma iterations_point (x : Q) : iterations x x latStep = 1%nat.
Proof.
  unfold iterations.
  assert (Qle_bool x x = true) as -> by (apply Qle_bool_iff; lra).
  assert ((x - x) / latStep == inject_Z 0)%Q as -> by (unfold latStep; field).
  by rewrite Qfloor_Z.
Qed.

(** C9. [encodeGeohash] is a function of its three arguments, and for a
    coordinate pair inside the valid domain [calculateGeohashes] on the
    rectangle reduced to that point returns, as soon as it has fuel for one
    iteration, the one-element array holding [encodeGeohash lat lon
    precision]. *)
Theorem calculateGeohashes_single_point `{NGeohash}
    (lat lon : Q) (precision : option Z) (fuel : nat) :
  (-90 <= lat)%Q → (lat <= 90)%Q → (-180 <= lon)%Q → (lon <= 180)%Q →
  (1 ≤ fuel)%nat →
  calculateGeohashes fuel lon lat lon lat precision
    = Some [encodeGeohash lat lon precision]
  ∧ enoughFuel lon lat lon lat = 1%nat
  ∧ (∀ lat' lon' precision',
       lat' = lat → lon' = lon → precision' = precision →
       encodeGeohash lat' lon' precision' = encodeGeohash lat lon precision).
Proof.
  intros Hlat1 Hlat2 Hlon1 Hlon2 Hfuel. split; [|split].
  - destruct fuel as [|fuel]; [lia |].
    unfold calculateGeohashes. simpl.
    assert (Qle_bool lat lat = true) as -> by (apply Qle_bool_iff; lra).
    assert (Qle_bool lon lon = true) as -> by (apply Qle_bool_iff; lra).
    assert (inDomain lat lon = true) as -> by (by apply inDomain_true).
    rewrite lonLoop_exit by (apply Qle_bool_false; unfold lonStep; lra).
    rewrite latLoop_exit by (apply Qle_bool_false; unfold latStep; lra).
    unfold Set_add. rewrite decide_False by apply not_elem_of_nil.
    by destruct precision.
  - unfold enoughFuel. change lonStep with latStep.
    by rewrite !iterations_point.
  - by intros lat' lon' precision' -> -> ->.
Qed.

Lemma calculateGeohashes_single_point_witness :
  calculateGeohashes (H := ngeohash_reference) 1
    (-122.4194)%Q 37.7749%Q (-122.4194)%Q 37.7749%Q None
    = Some [encodeGeohash (H := ngeohash_reference) 37.7749%Q (-122.4194)%Q None]
  ∧ enoughFuel (-122.4194)%Q 37.7749%Q (-122.4194)%Q 37.7749%Q = 1%nat
  ∧ (∀ lat' lon' precision',
       lat' = 37.7749%Q → lon' = (-122.4194)%Q → precision' = None →
       encodeGeohash (H := ngeohash_reference) lat' lon' precision'
       = encodeGeohash (H := ngeohash_reference) 37.7749%Q (-122.4194)%Q None).
Proof.
  apply (calculateGeohashes_single_point (H := ngeohash_reference)
           37.7749%Q (-122.4194)%Q None 1).
  - vm_compute. discriminate.
  - vm_compute. discriminate.
  - vm_compute. discriminate.
  - vm_compute. discriminate.
  - lia.
Defined.

(** The reference encoder on the default map centre, and the tiler on the
    specification's rectangle around it: fifteen distinct cells. *)
Example calculateGeohashes_scenario :
  encodeGeohash (H := ngeohash_reference) 37.7749%Q (-122.4194)%Q None = "9q8yy"%string
  ∧ ∃ cells,
      calculateGeohashes (H := ngeohash_reference)
        (enoughFuel (-122.5)%Q 37.7%Q (-122.3)%Q 37.8%Q)
        (-122.5)%Q 37.7%Q (-122.3)%Q 37.8%Q (Some 5) = Some cells
      ∧ length cells = 15%nat ∧ NoDup cells.
Proof.
  split; [vm_compute; reflexivity |].
  eexists. split; [vm_compute; reflexivity |].
  split; [reflexivity |]. refine (bool_decide_unpack _ _). vm_compute. exact I.
Qed.

End GeohashProofs.

(** ** The poll controller *)
Module VesselMapProofs.
Import VesselContext VesselMap.

Local Arguments Qltb : simpl never.
Local Arguments sameDeps : simpl never.

(** *** What each piece leaves alone *)

Lemma fetchVessels_call_cases (f : FetchVessels) (s : State) :
  fetchVessels_call f s = s
  ∨ ∃ req, fetchVessels_call f s =
           set_pending (pending s ++ [req]) (setError None (setIsLoading true s)).
Proof.
  unfold fetchVessels_call. destruct (cap_bbox f) as [b|]; [|by left].
  destruct (Qltb (cap_zoom f) Config.MIN_ZOOM_LEVEL); [by left |].
  right. by eexists.
Qed.

Lemma fetchVessels_call_frame (f : FetchVessels) (s : State) :
  sameTimer s (fetchVessels_call f s) ∧ sameView s (fetchVessels_call f s)
  ∧ store (fetchVessels_call f s) = store s.
Proof.
  destruct (fetchVessels_call_cases f s) as [-> | [req ->]]; by repeat split.
Qed.

Lemma handle_sameTimer `{JsDate} (e : Event) (s : State) :
  sameTimer s (handle e s).
Proof.
  destruct e as [bounds currentZoom | h now | i response | i]; simpl.
  - unfold handleRegionDidChange.
    destruct bounds as [bounds|]; [|by repeat split].
    destruct currentZoom as [z|]; [|by repeat split].
    destruct (Qeq_bool z 0); [by repeat split |].
    destruct (Qltb z Config.MIN_ZOOM_LEVEL); by repeat split.
  - destruct (intervals s !! h) as [f|]; [|by repeat split].
    unfold intervalCallback.
    destruct (fetchVessels_call_frame f s) as [(? & ? & ? & ? & ?) _].
    by repeat split.
  - destruct (pending s !! i); [|by repeat split].
    unfold fetchVessels_resolved.
    destruct (0 <? length (resp_vessels response))%nat; by repeat split.
  - destruct (pending s !! i); by repeat split.
Qed.

Lemma handle_structural `{JsDate} (e : Event) (s : State) :
  structural s → structural (handle e s).
Proof.
  intros [Hobj Htimer].
  destruct (handle_sameTimer e s) as (Href & Hint & Hnext & _ & Hclean).
  split.
  - destruct e as [bounds currentZoom | h now | i response | i]; simpl.
    + unfold handleRegionDidChange.
      destruct bounds as [bounds|]; [|done].
      destruct currentZoom as [z|]; [|done].
      destruct (Qeq_bool z 0); [done |].
      destruct (Qltb z Config.MIN_ZOOM_LEVEL); simpl; intros o [= <-]; simpl; lia.
    + destruct (intervals s !! h) as [f|]; [|done].
      unfold intervalCallback.
      destruct (fetchVessels_call_frame f s) as (_ & (_ & Hb & Hn) & _).
      simpl. rewrite Hb, Hn. done.
    + destruct (pending s !! i); [|done].
      unfold fetchVessels_resolved.
      destruct (0 <? length (resp_vessels response))%nat; done.
    + destruct (pending s !! i); done.
  - by rewrite Href, Hint, Hnext, Hclean.
Qed.

(** *** The effect *)

Lemma sameDeps_refl (d : Deps) : sameDeps d d = true.
Proof.
  unfold sameDeps. rewrite !andb_true_iff, !bool_decide_eq_true, Qeq_bool_iff.
  repeat split; reflexivity.
Qed.

Lemma Qltb_comp (x y m : Q) : (x == y)%Q → Qltb x m = Qltb y m.
Proof. intros Heq. unfold Qltb. by rewrite Heq. Qed.

(** Two states with the same dependencies agree on whether to poll. *)
Lemma sameDeps_inactiveView (d : Deps) (s s' : State) :
  sameDeps d (depsOf s) = true → sameDeps d (depsOf s') = true →
  inactiveView s' = inactiveView s.
Proof.
  unfold sameDeps, depsOf. simpl.
  rewrite !andb_true_iff, !bool_decide_eq_true, !Qeq_bool_iff.
  intros [[Hb Hz] _] [[Hb' Hz'] _]. unfold inactiveView.
  rewrite (Qltb_comp (zoom s') (zoom s)) by (by rewrite <- Hz, <- Hz').
  f_equal. rewrite Hb in Hb'.
  destruct (bbox s), (bbox s'); simpl in Hb'; done.
Qed.

Lemma render_cases (s : State) (d : Deps) :
  effectDeps s = Some d →
  render s = if sameDeps d (depsOf s) then s else rerun s.
Proof. intros Hd. unfold render, rerun. by rewrite Hd. Qed.

(** After the cleanup no interval is left. *)
Lemma cleanup_quiet (s : State) :
  structural s →
  let s1 := if effectCleanup s then pollingCleanup s else s in
  pollingIntervalRef s1 = None ∧ intervals s1 = ∅
  ∧ sameView s s1 ∧ nextHandle s1 = nextHandle s ∧ store s1 = store s
  ∧ pending s1 = pending s ∧ error s1 = error s ∧ isLoading s1 = isLoading s.
Proof.
  intros [_ Htimer]. unfold pollingCleanup.
  destruct (pollingIntervalRef s) as [h|] eqn:Href.
  - destruct Htimer as (_ & -> & f & Hint). simpl. rewrite Hint.
    by rewrite delete_singleton_eq.
  - destruct (effectCleanup s); simpl; by rewrite Href.
Qed.

(** The body of the effect, run in a state without interval. *)
Lemma pollingEffect_quiet (s : State) (d : option Deps) (c : bool) :
  pollingIntervalRef s = None → intervals s = ∅ →
  pollingEffect (set_effect d c s) =
  if inactiveView s
  then set_effect d false s
  else set_effect d true
         (startPolling (currentFetchVessels s)
            (set_pending
               (pending s ++
                  [mkRequest (from_option obj_val (mkBbox 0 0 0 0) (bbox s))
                     (Math_round (zoom s))
                     (orUndefined (lastServerTime (store s)))])
               (setError None (setIsLoading true s)))).
Proof.
  intros Href Hint. unfold pollingEffect, inactiveView. simpl.
  destruct (Qltb (zoom s) Config.MIN_ZOOM_LEVEL) eqn:Hz; simpl.
  { by rewrite Href. }
  destruct (bbox s) as [b|] eqn:Hb; simpl.
  - unfold fetchVessels_call. simpl. rewrite Hb, Hz. reflexivity.
  - by rewrite Href.
Qed.

Lemma rerun_wf (s : State) : structural s → wf (rerun s).
Proof.
  intros Hs. pose proof (cleanup_quiet s Hs) as Hquiet.
  destruct Hs as [Hobj _]. unfold rerun.
  set (s1 := if effectCleanup s then pollingCleanup s else s) in *.
  simpl in Hquiet.
  destruct Hquiet as (Href & Hint & (Hz & Hb & Hno) & Hnh & Hst & _).
  rewrite pollingEffect_quiet by done.
  assert (depsOf s1 = depsOf s) as Hdeps by (unfold depsOf; by rewrite Hz, Hb, Hst).
  assert (inactiveView s1 = inactiveView s) as Hview
    by (unfold inactiveView; by rewrite Hz, Hb).
  destruct (inactiveView s1) eqn:Hin.
  - split; [split |split]; simpl.
    + intros o Ho. rewrite Hno. apply Hobj. by rewrite <- Hb.
    + by rewrite Href.
    + exists (depsOf s). split; [done |].
      change (sameDeps (depsOf s) (depsOf s1) = true).
      rewrite Hdeps. apply sameDeps_refl.
    + change (inactiveView s1 = bool_decide (pollingIntervalRef s1 = None)).
      rewrite Hin, Href. done.
  - split; [split |split]; simpl.
    + intros o Ho. rewrite Hno. apply Hobj. by rewrite <- Hb.
    + split; [lia |]. split; [done |]. rewrite Hint.
      eexists. by rewrite insert_empty.
    + exists (depsOf s). split; [done |].
      change (sameDeps (depsOf s) (depsOf s1) = true).
      rewrite Hdeps. apply sameDeps_refl.
    + change (inactiveView s1 = false). done.
Qed.

Lemma step_wf `{JsDate} (s : State) (e : Event) : wf s → wf (step s e).
Proof.
  intros [Hs [(d & Hd & Hsame) Hview]]. unfold step.
  pose proof (handle_structural e s Hs) as Hs'.
  destruct (handle_sameTimer e s) as (Href & _ & _ & Hdeps & _).
  rewrite (render_cases _ d) by (by rewrite Hdeps).
  destruct (sameDeps d (depsOf (handle e s))) eqn:Hsame'.
  - split; [done |]. split.
    + exists d. split; [by rewrite Hdeps | done].
    + rewrite (sameDeps_inactiveView d s) by done. by rewrite Href.
  - by apply rerun_wf.
Qed.

Lemma mounted_wf : wf mounted.
Proof.
  split; [split | split].
  - done.
  - reflexivity.
  - eexists. split; [reflexivity |]. vm_compute. reflexivity.
  - vm_compute. reflexivity.
Qed.

Lemma run_snoc `{JsDate} (es : list Event) (e : Event) (s : State) :
  run (es ++ [e]) s = step (run es s) e.
Proof. unfold run. by rewrite foldl_app. Qed.

Lemma reachable_wf `{JsDate} (s : State) : reachable s → wf s.
Proof.
  intros [es ->]. induction es as [|e es IH] using rev_ind.
  - apply mounted_wf.
  - rewrite run_snoc. by apply step_wf.
Qed.

Lemma reachable_step `{JsDate} (s : State) (e : Event) :
  reachable s → reachable (step s e).
Proof. intros [es ->]. exists (es ++ [e]). by rewrite run_snoc. Qed.

(** *** What a render leaves alone *)

Lemma pollingEffect_frame (s : State) :
  store (pollingEffect s) = store s ∧ sameView s (pollingEffect s).
Proof.
  unfold pollingEffect.
  destruct (Qltb (zoom s) Config.MIN_ZOOM_LEVEL || bool_decide (bbox s = None)).
  - by destruct (pollingIntervalRef s).
  - simpl.
    destruct (fetchVessels_call_frame (currentFetchVessels s) s)
      as (_ & (? & ? & ?) & ?).
    by repeat split.
Qed.

Lemma render_frame (s : State) :
  store (render s) = store s ∧ sameView s (render s).
Proof.
  assert (∀ s0 d c,
    store (pollingEffect (set_effect d c s0)) = store s0
    ∧ sameView s0 (pollingEffect (set_effect d c s0))) as Heff.
  { intros s0 d c. apply (pollingEffect_frame (set_effect d c s0)). }
  unfold render. destruct (effectDeps s) as [old|]; [|apply Heff].
  destruct (sameDeps old (depsOf s)); [by repeat split |].
  destruct (effectCleanup s); [|apply Heff].
  destruct (Heff (pollingCleanup s) (Some (depsOf s))
              (effectCleanup (pollingCleanup s))) as (Hst & Hz & Hb & Hn).
  unfold sameView. rewrite Hst, Hz, Hb, Hn.
  unfold pollingCleanup. by destruct (pollingIntervalRef s).
Qed.

Lemma active_inactiveView (s : State) : active s ↔ inactiveView s = false.
Proof.
  unfold active, inactiveView, Qltb.
  rewrite orb_false_iff, negb_false_iff, Qle_bool_iff, bool_decide_eq_false.
  rewrite <- not_eq_None_Some. tauto.
Qed.

(** The store after the handler of a resolved fetch. *)
Lemma resolved_store (response : Response) (s : State) :
  lastServerTime (store (fetchVessels_resolved response s))
    = Some (server_time response)
  ∧ vessels (store (fetchVessels_resolved response s))
    = match resp_vessels response with
      | [] => vessels (store s)
      | _ :: _ => updateMultipleVessels (resp_vessels response) (vessels (store s))
      end.
Proof.
  unfold fetchVessels_resolved. by destruct (resp_vessels response).
Qed.

(** A region change that goes through allocates a new [Bbox] object, so
    the dependencies of the effect differ from those of its last run. *)
Lemma fresh_bbox_changes_deps (s s0 : State) (b : Bbox) (d : Deps) :
  wf s → effectDeps s = Some d →
  bbox s0 = Some (mkBboxObj (nextObj s) b) →
  sameDeps d (depsOf s0) = false.
Proof.
  intros [[Hobj _] [(d' & Hd' & Hsame) _]] Hd Hb.
  rewrite Hd in Hd'. injection Hd' as <-.
  destruct (sameDeps d (depsOf s0)) eqn:Hsame0; [|done].
  unfold sameDeps, depsOf in *. simpl in *. rewrite Hb in Hsame0.
  apply andb_true_iff in Hsame as [Hsame _].
  apply andb_true_iff in Hsame as [Hsame _].
  apply andb_true_iff in Hsame0 as [Hsame0 _].
  apply andb_true_iff in Hsame0 as [Hsame0 _].
  apply bool_decide_eq_true in Hsame, Hsame0.
  rewrite Hsame in Hsame0. destruct (bbox s) as [o|]; [|done].
  specialize (Hobj o eq_refl). simpl in Hsame0. injection Hsame0. lia.
Qed.

(** A region change that goes through makes React run the effect again. *)
Lemma step_region_rerun `{JsDate} (s : State)
    (bounds : (Q * Q) * (Q * Q)) (z : Q) :
  wf s → Qeq_bool z 0 = false →
  let s0 := handleRegionDidChange (Some bounds) (Some z) s in
  step s (RegionDidChange (Some bounds) (Some z)) = rerun s0
  ∧ structural s0
  ∧ bbox s0 = Some (mkBboxObj (nextObj s)
                      (mkBbox bounds.1.1 bounds.1.2 bounds.2.1 bounds.2.2))
  ∧ zoom s0 = z ∧ pending s0 = pending s
  ∧ store s0 = (if Qltb z Config.MIN_ZOOM_LEVEL
                then VesselContext.initial else store s).
Proof.
  intros Hwf Hz0 s0.
  assert (bbox s0 = Some (mkBboxObj (nextObj s)
            (mkBbox bounds.1.1 bounds.1.2 bounds.2.1 bounds.2.2))) as Hb.
  { subst s0. unfold handleRegionDidChange. rewrite Hz0.
    by destruct (Qltb z Config.MIN_ZOOM_LEVEL). }
  pose proof (handle_structural (RegionDidChange (Some bounds) (Some z)) s
                (proj1 Hwf)) as Hs0.
  destruct (handle_sameTimer (RegionDidChange (Some bounds) (Some z)) s)
    as (_ & _ & _ & Hdeps & _).
  change (handle (RegionDidChange (Some bounds) (Some z)) s) with s0
    in Hs0, Hdeps.
  destruct Hwf as [Hstruct [(d & Hd & Hsame) Hview]].
  split; [|split; [done | split; [done |]]].
  - unfold step.
    change (handle (RegionDidChange (Some bounds) (Some z)) s) with s0.
    rewrite (render_cases s0 d) by (by rewrite Hdeps).
    erewrite fresh_bbox_changes_deps; [done | | done | done].
    split; [done | split; [by exists d | done]].
  - subst s0. unfold handleRegionDidChange. rewrite Hz0.
    by destruct (Qltb z Config.MIN_ZOOM_LEVEL).
Qed.

Import Iso8601 Scenario.

(** The controller of the scenario: mounted, then shown [viewport1] at zoom
    13; it polls and its immediate fetch is in flight. *)
Lemma scenario_active :
  let s1 := run (H := iso8601_getTime)
              [RegionDidChange (Some viewport1) (Some 13%Q)] mounted in
  active s1 ∧ pollingIntervalRef s1 = Some 0%nat
  ∧ pending s1 = [mkRequest (mkBbox (-122.5) 37.7 (-122.3) 37.8) 13 None]
  ∧ store s1 = VesselContext.initial.
Proof.
  split; [|by vm_compute].
  apply active_inactiveView. vm_compute. reflexivity.
Qed.

(** C4. After a fetch that resolved, the cursor is the server time of the
    response whether or not the response lists vessels; the vessels are
    merged when the list is not empty, and the map is left as it is when it
    is empty. *)
Theorem fetch_success_advances_cursor `{JsDate}
    (s : State) (i : nat) (req : Request) (response : Response) :
  pending s !! i = Some req →
  let s' := step s (FetchResolved i response) in
  lastServerTime (store s') = Some (server_time response)
  ∧ vessels (store s')
    = match resp_vessels response with
      | [] => vessels (store s)
      | _ :: _ => updateMultipleVessels (resp_vessels response) (vessels (store s))
      end.
Proof.
  intros Hreq s'. subst s'. unfold step.
  destruct (render_frame (handle (FetchResolved i response) s)) as [-> _].
  simpl. rewrite Hreq.
  apply (resolved_store response (set_pending (delete i (pending s)) s)).
Qed.

Lemma fetch_success_advances_cursor_witness :
  let s1 := run (H := iso8601_getTime)
              [RegionDidChange (Some viewport1) (Some 13%Q)] mounted in
  let empty := mkResponse [] "2024-01-01T00:00:30Z" true in
  let s' := step (H := iso8601_getTime) s1 (FetchResolved 0 empty) in
  lastServerTime (store s') = Some "2024-01-01T00:00:30Z"%string
  ∧ vessels (store s') = vessels (store s1).
Proof.
  intros s1 empty.
  apply (fetch_success_advances_cursor (H := iso8601_getTime) s1 0
           (mkRequest (mkBbox (-122.5) 37.7 (-122.3) 37.8) 13 None) empty).
  vm_compute. reflexivity.
Defined.

(** C5. When the service rejects, the map of vessels and the cursor are
    what they were before, the error message is set and the loading flag
    cleared. *)
Theorem fetch_failure_leaves_store `{JsDate}
    (s : State) (i : nat) (req : Request) :
  reachable s → pending s !! i = Some req →
  let s' := step s (FetchRejected i) in
  vessels (store s') = vessels (store s)
  ∧ lastServerTime (store s') = lastServerTime (store s)
  ∧ error s' = Some "Failed to fetch vessels"%string
  ∧ isLoading s' = false.
Proof.
  intros Hreach Hreq s'. subst s'. unfold step. simpl. rewrite Hreq.
  apply reachable_wf in Hreach as [_ [(d & Hd & Hsame) _]].
  rewrite (render_cases _ d) by done.
  change (depsOf (fetchVessels_rejected (set_pending (delete i (pending s)) s)))
    with (depsOf s).
  by rewrite Hsame.
Qed.

Lemma fetch_failure_leaves_store_witness :
  let s := run (H := iso8601_getTime)
             [RegionDidChange (Some viewport1) (Some 13%Q);
              FetchResolved 0 response100] mounted in
  let req := mkRequest (mkBbox (-122.5) 37.7 (-122.3) 37.8) 13
               (Some "2024-01-01T00:00:20Z"%string) in
  let s' := step (H := iso8601_getTime) s (FetchRejected 0) in
  (vessels (store s) !! 100 = Some vessel100 ∧ pending s !! 0%nat = Some req)
  ∧ vessels (store s') = vessels (store s)
  ∧ lastServerTime (store s') = lastServerTime (store s)
  ∧ error s' = Some "Failed to fetch vessels"%string
  ∧ isLoading s' = false.
Proof.
  intros s req. split.
  - split; vm_compute; reflexivity.
  - apply (fetch_failure_leaves_store (H := iso8601_getTime) s 0 req).
    + exists [RegionDidChange (Some viewport1) (Some 13%Q);
              FetchResolved 0 response100].
      reflexivity.
    + vm_compute. reflexivity.
Defined.

(** C6, as stated, fails: the controller of the scenario, Active with the
    interval of handle 0, is shown [viewport2] at the same zoom 13 and stays
    Active; the interval of handle 0 is cleared and one of handle 1 is set,
    so the timer was restarted. *)
Lemma timer_not_restarted_counterexample :
  let s1 := run (H := iso8601_getTime)
              [RegionDidChange (Some viewport1) (Some 13%Q)] mounted in
  let s2 := step (H := iso8601_getTime) s1
              (RegionDidChange (Some viewport2) (Some 13%Q)) in
  active s1 ∧ active s2
  ∧ ¬ (pollingIntervalRef s2 = pollingIntervalRef s1
       ∧ intervals s2 = intervals s1).
Proof.
  intros s1 s2. split; [|split].
  - apply active_inactiveView. vm_compute. reflexivity.
  - apply active_inactiveView. vm_compute. reflexivity.
  - intros [Href _]. vm_compute in Href. discriminate.
Qed.

(** C6, amended.  On a viewport change while the controller stays Active,
    the bounding box is recomputed and the store and the cursor are not
    reset; the polling timer is restarted: the effect's cleanup clears the
    running interval, and the effect issues a fetch for the new viewport at
    once and sets a new interval. *)
Theorem region_change_while_active `{JsDate}
    (s : State) (bounds : (Q * Q) * (Q * Q)) (z : Q) :
  reachable s → active s → (Config.MIN_ZOOM_LEVEL <= z)%Q →
  let s' := step s (RegionDidChange (Some bounds) (Some z)) in
  let newBbox := mkBbox bounds.1.1 bounds.1.2 bounds.2.1 bounds.2.2 in
  active s'
  ∧ obj_val <$> bbox s' = Some newBbox
  ∧ store s' = store s
  ∧ (∃ h, pollingIntervalRef s = Some h ∧ intervals s' !! h = None)
  ∧ pollingIntervalRef s' = Some (nextHandle s)
  ∧ pollingIntervalRef s' ≠ pollingIntervalRef s
  ∧ intervals s' = {[nextHandle s := currentFetchVessels s']}
  ∧ pending s'
    = pending s ++ [mkRequest newBbox (Math_round z)
                      (orUndefined (lastServerTime (store s)))].
Proof.
  intros Hreach Hactive Hz s' newBbox.
  pose proof (reachable_wf s Hreach) as Hwf.
  assert (Qltb z Config.MIN_ZOOM_LEVEL = false) as Hzlt
    by (unfold Qltb; apply negb_false_iff; by apply Qle_bool_iff).
  assert (Qeq_bool z 0 = false) as Hz0.
  { destruct (Qeq_bool z 0) eqn:Heq; [|done].
    apply Qeq_bool_iff in Heq. unfold Config.MIN_ZOOM_LEVEL in Hz. lra. }
  destruct (step_region_rerun s bounds z Hwf Hz0)
    as (Hstep & Hs0 & Hb0 & Hz0' & Hpend0 & Hst0).
  rewrite Hzlt in Hst0.
  set (s0 := handleRegionDidChange (Some bounds) (Some z) s) in *.
  destruct (handle_sameTimer (RegionDidChange (Some bounds) (Some z)) s)
    as (_ & _ & Hnh0 & _ & _).
  change (handle (RegionDidChange (Some bounds) (Some z)) s) with s0 in Hnh0.
  pose proof (cleanup_quiet s0 Hs0) as Hquiet. simpl in Hquiet.
  set (s1 := if effectCleanup s0 then pollingCleanup s0 else s0) in *.
  destruct Hquiet as (Href1 & Hint1 & (Hz1 & Hb1 & _) & Hnh1 & Hst1 & Hpend1 & _).
  assert (inactiveView s1 = false) as Hview1.
  { unfold inactiveView. rewrite Hz1, Hb1, Hz0', Hb0, Hzlt. done. }
  assert (s' = rerun s0) as -> by done.
  unfold rerun. fold s1. rewrite pollingEffect_quiet, Hview1 by done.
  destruct Hwf as [[_ Htimer] [_ Hview]].
  apply active_inactiveView in Hactive. rewrite Hactive in Hview.
  symmetry in Hview. apply bool_decide_eq_false in Hview.
  destruct (pollingIntervalRef s) as [h|] eqn:Href; [|done].
  destruct Htimer as (Hh & _ & _).
  unfold currentFetchVessels, active. simpl.
  rewrite Hint1, Hnh1, Hnh0, Hpend1, Hpend0, Hst1, Hst0, Hb1, Hb0, Hz1, Hz0'.
  repeat split.
  - by eexists.
  - done.
  - exists h. split; [done |]. rewrite insert_empty.
    apply lookup_singleton_ne. lia.
  - intros [= Heq]. lia.
Qed.

Lemma region_change_while_active_witness :
  let s1 := run (H := iso8601_getTime)
              [RegionDidChange (Some viewport1) (Some 13%Q)] mounted in
  let s' := step (H := iso8601_getTime) s1
              (RegionDidChange (Some viewport2) (Some 13%Q)) in
  let newBbox := mkBbox (-123) 37 (-122) 38 in
  active s'
  ∧ obj_val <$> bbox s' = Some newBbox
  ∧ store s' = store s1
  ∧ (∃ h, pollingIntervalRef s1 = Some h ∧ intervals s' !! h = None)
  ∧ pollingIntervalRef s' = Some (nextHandle s1)
  ∧ pollingIntervalRef s' ≠ pollingIntervalRef s1
  ∧ intervals s' = {[nextHandle s1 := currentFetchVessels s']}
  ∧ pending s'
    = pending s1 ++ [mkRequest newBbox (Math_round 13)
                       (orUndefined (lastServerTime (store s1)))].
Proof.
  intros s1.
  apply (region_change_while_active (H := iso8601_getTime) s1 viewport2 13%Q).
  - exists [RegionDidChange (Some viewport1) (Some 13%Q)]. reflexivity.
  - apply active_inactiveView. vm_compute. reflexivity.
  - vm_compute. discriminate.
Defined.

(** C1, as stated, fails: the controller of the scenario is Active at zoom
    13 with its fetch for [viewport1] in flight; the viewport changes to
    zoom 10, which resets the store and stops the timer; the fetch then
    resolves with one vessel, and the store holds that vessel and the
    cursor the response's server time. *)
Lemma stale_fetch_discarded_counterexample :
  let s1 := run (H := iso8601_getTime)
              [RegionDidChange (Some viewport1) (Some 13%Q)] mounted in
  let s2 := step (H := iso8601_getTime) s1
              (RegionDidChange (Some viewport2) (Some 10%Q)) in
  let s3 := step (H := iso8601_getTime) s2 (FetchResolved 0 response100) in
  (active s1 ∧ is_Some (pending s1 !! 0%nat))
  ∧ (¬ active s2 ∧ store s2 = VesselContext.initial
     ∧ pollingIntervalRef s2 = None)
  ∧ ¬ (vessels (store s3) = ∅ ∧ lastServerTime (store s3) = None).
Proof.
  intros s1 s2 s3. split; [split | split; [split; [|split] |]].
  - apply active_inactiveView. vm_compute. reflexivity.
  - eexists. vm_compute. reflexivity.
  - rewrite active_inactiveView. vm_compute. discriminate.
  - vm_compute. reflexivity.
  - vm_compute. reflexivity.
  - intros [_ Hcursor]. vm_compute in Hcursor. discriminate.
Qed.

(** C1, amended.  When the viewport changes to a zoom below the minimum
    threshold (and other than 0, which the handler ignores), the store is
    reset and the timer stopped, and a fetch in flight stays in flight.
    The completion of that fetch is not checked against the state of the
    controller: when it resolves, its vessel list is merged into the reset
    store and its server time becomes the cursor. *)
Theorem fetch_resolved_after_zoom_out `{JsDate}
    (s : State) (i : nat) (req : Request)
    (bounds : (Q * Q) * (Q * Q)) (z : Q) (response : Response) :
  reachable s → pending s !! i = Some req →
  (z < Config.MIN_ZOOM_LEVEL)%Q → ¬ (z == 0)%Q →
  let s' := step s (RegionDidChange (Some bounds) (Some z)) in
  let s'' := step s' (FetchResolved i response) in
  (¬ active s' ∧ store s' = VesselContext.initial
   ∧ pollingIntervalRef s' = None ∧ intervals s' = ∅
   ∧ pending s' !! i = Some req)
  ∧ vessels (store s'') = updateMultipleVessels (resp_vessels response) ∅
  ∧ lastServerTime (store s'') = Some (server_time response).
Proof.
  intros Hreach Hreq Hz Hz0 s' s''.
  pose proof (reachable_wf s Hreach) as Hwf.
  assert (Qltb z Config.MIN_ZOOM_LEVEL = true) as Hzlt.
  { unfold Qltb. apply negb_true_iff.
    destruct (Qle_bool Config.MIN_ZOOM_LEVEL z) eqn:Hle; [|done].
    apply Qle_bool_iff in Hle. lra. }
  assert (Qeq_bool z 0 = false) as Hz0'.
  { destruct (Qeq_bool z 0) eqn:Heq; [|done]. by apply Qeq_bool_iff in Heq. }
  destruct (step_region_rerun s bounds z Hwf Hz0')
    as (Hstep & Hs0 & Hb0 & Hzoom0 & Hpend0 & Hst0).
  rewrite Hzlt in Hst0.
  set (s0 := handleRegionDidChange (Some bounds) (Some z) s) in *.
  pose proof (cleanup_quiet s0 Hs0) as Hquiet. simpl in Hquiet.
  set (s1 := if effectCleanup s0 then pollingCleanup s0 else s0) in *.
  destruct Hquiet as (Href1 & Hint1 & (Hz1 & Hb1 & _) & _ & Hst1 & Hpend1 & _).
  assert (inactiveView s1 = true) as Hview1.
  { unfold inactiveView. by rewrite Hz1, Hzoom0, Hzlt. }
  assert (s' = set_effect (Some (depsOf s0)) false s1) as Hs'.
  { subst s'. rewrite Hstep. unfold rerun. fold s1.
    by rewrite pollingEffect_quiet, Hview1. }
  assert (store s' = VesselContext.initial) as Hstore'
    by (by rewrite Hs'; simpl; rewrite Hst1).
  assert (pending s' !! i = Some req) as Hreq'
    by (by rewrite Hs'; simpl; rewrite Hpend1, Hpend0).
  split.
  - split; [|split; [done | split; [|split; [|done]]]].
    + rewrite active_inactiveView, Hs'.
      change (inactiveView (set_effect (Some (depsOf s0)) false s1))
        with (inactiveView s1).
      by rewrite Hview1.
    + by rewrite Hs'.
    + by rewrite Hs'.
  - subst s''. unfold step.
    destruct (render_frame (handle (FetchResolved i response) s')) as [-> _].
    simpl. rewrite Hreq'.
    destruct (resolved_store response (set_pending (delete i (pending s')) s'))
      as [-> ->].
    simpl. rewrite Hstore'. split; [|done].
    by destruct (resp_vessels response).
Qed.

Lemma fetch_resolved_after_zoom_out_witness :
  let s1 := run (H := iso8601_getTime)
              [RegionDidChange (Some viewport1) (Some 13%Q)] mounted in
  let s' := step (H := iso8601_getTime) s1
              (RegionDidChange (Some viewport2) (Some 10%Q)) in
  let s'' := step (H := iso8601_getTime) s' (FetchResolved 0 response100) in
  (¬ active s' ∧ store s' = VesselContext.initial
   ∧ pollingIntervalRef s' = None ∧ intervals s' = ∅
   ∧ pending s' !! 0%nat
     = Some (mkRequest (mkBbox (-122.5) 37.7 (-122.3) 37.8) 13 None))
  ∧ vessels (store s'') = updateMultipleVessels [vessel100] ∅
  ∧ lastServerTime (store s'') = Some "2024-01-01T00:00:20Z"%string.
Proof.
  intros s1.
  apply (fetch_resolved_after_zoom_out (H := iso8601_getTime) s1 0
           (mkRequest (mkBbox (-122.5) 37.7 (-122.3) 37.8) 13 None)
           viewport2 10%Q response100).
  - exists [RegionDidChange (Some viewport1) (Some 13%Q)]. reflexivity.
  - vm_compute. reflexivity.
  - vm_compute. reflexivity.
  - vm_compute. discriminate.
Defined.

End VesselMapProofs.

(** ** The tiler as a fold over the sample grid *)
Module GeohashGrid.
Import Geohash GeohashProofs.


Lemma iterations_exit (lo hi : Q) :
  Qle_bool lo hi = false → iterations lo hi latStep = 0%nat.
Proof. intros Hle. unfold iterations. by rewrite Hle. Qed.



(** The values of an axis lie between its bounds, each a whole number of
    steps from the lower one. *)
Lemma gridFrom_lookup (n : nat) :
  ∀ (x : Q) (i : nat) (y : Q),
    gridFrom n x !! i = Some y → (y == x + inject_Z (Z.of_nat i) * latStep)%Q.
Proof.
  induction n as [|n IH]; intros x i y; [done |].
  destruct i as [|i].
  - intros [= <-]. change (inject_Z (Z.of_nat 0)) with 0%Q. lra.
  - intros Hy. apply IH in Hy. rewrite Hy.
    rewrite Nat2Z.inj_succ. unfold Z.succ. rewrite inject_Z_plus.
    change (inject_Z 1) with 1%Q. lra.
Qed.



Lemma axis_inverted (lo hi : Q) : (hi < lo)%Q → axis lo hi = [].
Proof.
  intros Hlt%Qle_bool_false. unfold axis. by rewrite iterations_exit.
Qed.


(** *** What the folds keep *)





Section Row.
Context `{NGeohash} (precision : Z) (lat : Q).



End Row.

Section Cover.
Context `{NGeohash} (precision : Z) (lons : list Q).



End Cover.







Import Scenario.










End GeohashGrid.

(** ** More on the vessel store *)
Module VesselContextMore.
Import VesselContext VesselContextProofs Iso8601 Scenario.

Lemma lastWith_is_Some (k : Z) (vs : list Vessel) :
  is_Some (lastWith k vs) ↔ k ∈ mmsi <$> vs.
Proof.
  induction vs as [|v vs IH] using rev_ind.
  - split; [by intros [? ?] | by intros ?%elem_of_nil].
  - rewrite lastWith_snoc, fmap_app, elem_of_app. simpl.
    rewrite list_elem_of_singleton.
    destruct (decide (mmsi v = k)) as [<-|Hne].
    + split; [by right | by eexists].
    + rewrite IH. split; [by left | by intros [? | ?]].
Qed.

(** X6. Merges compose: a bulk merge after a bulk merge is the bulk merge
    of the two arrays one after the other, and any sequence of single and
    bulk merges ends in the map that one bulk merge of all its records, in
    order, produces. *)
Theorem merges_compose (m : gmap Z Vessel) :
  (∀ vs ws,
     updateMultipleVessels ws (updateMultipleVessels vs m)
     = updateMultipleVessels (vs ++ ws) m)
  ∧ (∀ v, updateVessel v m = updateMultipleVessels [v] m
          ∧ addVessel v m = updateMultipleVessels [v] m)
  ∧ (∀ ops, applyOps ops m = updateMultipleVessels (mergedRecords ops) m).
Proof.
  split; [|split].
  - intros vs ws. unfold updateMultipleVessels. by rewrite foldl_app.
  - done.
  - intros ops. apply map_eq. intros k.
    by rewrite lookup_applyOps, lookup_updateMultipleVessels.
Qed.

(** X7. A bulk merge never removes a vessel: the identifiers afterwards are
    those before together with those of the array, and every identifier the
    array does not mention keeps its record. *)
Theorem updateMultipleVessels_keeps_others (vs : list Vessel) (m : gmap Z Vessel) :
  dom (updateMultipleVessels vs m) = dom m ∪ list_to_set (mmsi <$> vs)
  ∧ (∀ k, k ∉ mmsi <$> vs → updateMultipleVessels vs m !! k = m !! k)
  ∧ (size m ≤ size (updateMultipleVessels vs m))%nat.
Proof.
  assert (∀ k, k ∉ mmsi <$> vs → updateMultipleVessels vs m !! k = m !! k)
    as Hother.
  { intros k Hk. rewrite lookup_updateMultipleVessels.
    destruct (lastWith k vs) as [v|] eqn:Hv; [|done].
    destruct Hk. apply lastWith_is_Some. by eexists. }
  assert (dom (updateMultipleVessels vs m) = dom m ∪ list_to_set (mmsi <$> vs))
    as Hdom.
  { apply set_eq. intros k.
    rewrite elem_of_union, elem_of_list_to_set, !elem_of_dom,
      lookup_updateMultipleVessels, <- lastWith_is_Some.
    destruct (lastWith k vs) as [v|]; split.
    - intros _. right. by eexists.
    - intros _. by eexists.
    - by left.
    - intros [? | [? ?]]; done. }
  split; [done |]. split; [done |].
  assert (dom m ⊆ dom (updateMultipleVessels vs m)) as Hsub.
  { rewrite Hdom. apply union_subseteq_l. }
  apply subseteq_size in Hsub. by rewrite !size_dom in Hsub.
Qed.

(** X8. Merging the same array a second time changes nothing. *)
Theorem updateMultipleVessels_replay (vs : list Vessel) (m : gmap Z Vessel) :
  updateMultipleVessels vs (updateMultipleVessels vs m)
  = updateMultipleVessels vs m.
Proof.
  apply map_eq. intros k. rewrite !lookup_updateMultipleVessels.
  by destruct (lastWith k vs).
Qed.

Section Sweeps.
Context `{JsDate}.

Lemma sweep_sweep (th1 th2 : Z) (m : gmap Z Vessel) :
  sweep th2 (sweep th1 m) = sweep (Z.max th1 th2) m.
Proof.
  apply map_eq. intros k. rewrite !lookup_sweep.
  destruct (m !! k) as [v|]; simpl; [|done].
  unfold newerThan. destruct (Date_getTime (last_updated v)) as [t|] eqn:Ht.
  - destruct (bool_decide (t > th1)) eqn:H1; simpl.
    + unfold newerThan. rewrite Ht.
      destruct (bool_decide (t > th2)) eqn:H2.
      * rewrite bool_decide_eq_true_2; [done |].
        apply bool_decide_eq_true in H1, H2. lia.
      * rewrite bool_decide_eq_false_2; [done |].
        apply bool_decide_eq_false in H2. lia.
    + rewrite bool_decide_eq_false_2; [done |].
      apply bool_decide_eq_false in H1. lia.
  - done.
Qed.

(** X9. A sweep only removes: what it returns is a part of the map it was
    given, with every surviving record unchanged; sweeping its result again
    at the same time changes nothing. *)
Theorem removeStaleVessels_only_removes (now : Z) (m : gmap Z Vessel) :
  removeStaleVessels now m ⊆ m
  ∧ (size (removeStaleVessels now m) ≤ size m)%nat
  ∧ removeStaleVessels now (removeStaleVessels now m) = removeStaleVessels now m.
Proof.
  assert (removeStaleVessels now m ⊆ m) as Hsub.
  { apply map_subseteq_spec. intros k v Hk.
    by apply lookup_sweep_Some in Hk as [? _]. }
  split; [done |]. split; [by apply map_subseteq_size |].
  unfold removeStaleVessels. simpl. rewrite sweep_sweep. by rewrite Z.max_id.
Qed.

(** X10. Sweeps accumulate: a sweep at [t1] followed by a sweep at a later
    time [t2] leaves what the sweep at [t2] alone leaves. *)
Theorem removeStaleVessels_later_sweep (t1 t2 : Z) (m : gmap Z Vessel) :
  t1 <= t2 →
  removeStaleVessels t2 (removeStaleVessels t1 m) = removeStaleVessels t2 m.
Proof.
  intros Hle. unfold removeStaleVessels. simpl. rewrite sweep_sweep.
  f_equal. lia.
Qed.

(** X11. A merge followed by a sweep: under each identifier of the array
    the last record of the array decides alone, kept when its timestamp is
    newer than the threshold and dropped otherwise, whatever record the
    store held before; the other identifiers are swept as before. *)
Theorem sweep_after_merge (now : Z) (vs : list Vessel) (m : gmap Z Vessel) (k : Z) :
  removeStaleVessels now (updateMultipleVessels vs m) !! k
  = match lastWith k vs with
    | Some v =>
        if newerThan (now - Config.STALE_VESSEL_TIMEOUT_MS) v
        then Some v else None
    | None => removeStaleVessels now m !! k
    end.
Proof.
  unfold removeStaleVessels. simpl.
  rewrite !lookup_sweep, lookup_updateMultipleVessels.
  by destruct (lastWith k vs).
Qed.

End Sweeps.

Lemma removeStaleVessels_later_sweep_witness :
  let m := updateMultipleVessels [vessel100; vessel200] ∅ in
  removeStaleVessels (H := iso8601_getTime) 1704067335000
    (removeStaleVessels (H := iso8601_getTime) 1704067320000 m)
  = removeStaleVessels (H := iso8601_getTime) 1704067335000 m.
Proof.
  intros m.
  apply (removeStaleVessels_later_sweep (H := iso8601_getTime)
           1704067320000 1704067335000 m).
  lia.
Defined.

End VesselContextMore.

(** ** More on the poll controller *)
Module VesselMapMore.
Import VesselContext VesselContextProofs VesselMap VesselMapProofs.
Import Iso8601 Scenario.

Local Arguments Qltb : simpl never.
Local Arguments sameDeps : simpl never.

(** *** The requests sent *)

Lemma Math_round_ge (z : Q) :
  Qltb z Config.MIN_ZOOM_LEVEL = false → 12 <= Math_round z.
Proof.
  unfold Qltb, Math_round, Config.MIN_ZOOM_LEVEL.
  rewrite negb_false_iff, Qle_bool_iff. intros Hz.
  rewrite <- (Qfloor_Z 12). apply Qfloor_resp_le.
  change (inject_Z 12) with 12%Q. lra.
Qed.

Lemma orUndefined_nonempty (t : option string) :
  orUndefined t ≠ Some EmptyString.
Proof. by destruct t as [[|c t]|]. Qed.

(** What [fetchVessels] does to the pending requests, in full. *)
Lemma fetchVessels_call_pending (f : FetchVessels) (s : State) :
  (fetchVessels_call f s = s
   ∧ (cap_bbox f = None ∨ Qltb (cap_zoom f) Config.MIN_ZOOM_LEVEL = true))
  ∨ ∃ b, cap_bbox f = Some b
         ∧ Qltb (cap_zoom f) Config.MIN_ZOOM_LEVEL = false
         ∧ fetchVessels_call f s
           = set_pending
               (pending s ++
                  [mkRequest (obj_val b) (Math_round (cap_zoom f))
                     (orUndefined (cap_lastServerTime f))])
               (setError None (setIsLoading true s)).
Proof.
  unfold fetchVessels_call. destruct (cap_bbox f) as [b|]; [|left; by split; [|left]].
  destruct (Qltb (cap_zoom f) Config.MIN_ZOOM_LEVEL) eqn:Hz.
  - left. split; [done | by right].
  - right. exists b. by repeat split.
Qed.

Lemma fetchVessels_call_good (f : FetchVessels) (s : State) :
  Forall goodRequest (pending s) →
  Forall goodRequest (pending (fetchVessels_call f s)).
Proof.
  intros Hgood.
  destruct (fetchVessels_call_pending f s) as [[-> _] | (b & _ & Hz & ->)];
    [done |].
  simpl. apply Forall_app. split; [done |]. apply Forall_singleton.
  split; [by apply Math_round_ge | apply orUndefined_nonempty].
Qed.

Lemma pollingEffect_good (s : State) :
  Forall goodRequest (pending s) → Forall goodRequest (pending (pollingEffect s)).
Proof.
  intros Hgood. unfold pollingEffect.
  destruct (Qltb (zoom s) Config.MIN_ZOOM_LEVEL || bool_decide (bbox s = None)).
  - by destruct (pollingIntervalRef s).
  - simpl. by apply fetchVessels_call_good.
Qed.

Lemma render_good (s : State) :
  Forall goodRequest (pending s) → Forall goodRequest (pending (render s)).
Proof.
  intros Hgood.
  assert (∀ s0 d c, pending s0 = pending s →
    Forall goodRequest (pending (pollingEffect (set_effect d c s0)))) as Heff.
  { intros s0 d c Hp. apply pollingEffect_good. simpl. by rewrite Hp. }
  unfold render. destruct (effectDeps s) as [old|]; [|by apply Heff].
  destruct (sameDeps old (depsOf s)); [done |].
  destruct (effectCleanup s); [|by apply Heff].
  apply Heff. unfold pollingCleanup. by destruct (pollingIntervalRef s).
Qed.

Lemma handle_good `{JsDate} (e : Event) (s : State) :
  Forall goodRequest (pending s) → Forall goodRequest (pending (handle e s)).
Proof.
  intros Hgood.
  destruct e as [bounds currentZoom | h now | i response | i]; simpl.
  - unfold handleRegionDidChange.
    destruct bounds as [bounds|]; [|done].
    destruct currentZoom as [z|]; [|done].
    destruct (Qeq_bool z 0); [done |].
    by destruct (Qltb z Config.MIN_ZOOM_LEVEL).
  - destruct (intervals s !! h) as [f|]; [|done].
    unfold intervalCallback. simpl. by apply fetchVessels_call_good.
  - destruct (pending s !! i); [|done].
    unfold fetchVessels_resolved.
    destruct (0 <? length (resp_vessels response))%nat; simpl;
      by apply Forall_delete.
  - destruct (pending s !! i); [|done]. simpl. by apply Forall_delete.
Qed.

(** X12. The service is never asked at a zoom below 12, and never with an
    empty [since]: in every state the component can reach, each request in
    flight carries a zoom of at least 12 and a [since] that is absent or a
    non-empty string. *)
Theorem requests_respect_min_zoom `{JsDate} (s : State) :
  reachable s → Forall goodRequest (pending s).
Proof.
  intros [es ->]. induction es as [|e es IH] using rev_ind.
  - by apply Forall_nil.
  - rewrite run_snoc. unfold step. by apply render_good, handle_good.
Qed.

Lemma requests_respect_min_zoom_witness :
  Forall goodRequest
    (pending (run (H := iso8601_getTime)
                [RegionDidChange (Some viewport1) (Some 13%Q);
                 FetchResolved 0 response100] mounted)).
Proof.
  apply (requests_respect_min_zoom (H := iso8601_getTime)).
  by eexists.
Defined.

(** *** The timer *)

(** The timer in a well-formed state. *)
Lemma wf_timer (s : State) :
  wf s →
  (inactiveView s = false →
   ∃ h f, pollingIntervalRef s = Some h ∧ intervals s = {[h := f]})
  ∧ (inactiveView s = true → pollingIntervalRef s = None ∧ intervals s = ∅).
Proof.
  intros [[_ Htimer] [_ Hview]]. split.
  - intros Hactive. rewrite Hactive in Hview.
    symmetry in Hview. apply bool_decide_eq_false in Hview.
    destruct (pollingIntervalRef s) as [h|]; [|done].
    destruct Htimer as (_ & _ & f & Hf). by exists h, f.
  - intros Hinactive. rewrite Hinactive in Hview.
    symmetry in Hview. apply bool_decide_eq_true in Hview.
    by rewrite Hview in Htimer |- *.
Qed.

(** X13. The timer follows the state of the controller and never leaks: in
    every reachable state, when the controller is Active exactly one
    interval is set, the one [pollingIntervalRef] holds, and when it is not
    Active no interval is set and the ref is null. *)
Theorem interval_iff_active `{JsDate} (s : State) :
  reachable s →
  (active s → ∃ h f, pollingIntervalRef s = Some h ∧ intervals s = {[h := f]})
  ∧ (¬ active s → pollingIntervalRef s = None ∧ intervals s = ∅).
Proof.
  intros [Hon Hoff]%reachable_wf%wf_timer.
  rewrite active_inactiveView. split; [done |].
  intros Hinactive%not_false_is_true. by apply Hoff.
Qed.

Lemma interval_iff_active_witness :
  let s := run (H := iso8601_getTime)
             [RegionDidChange (Some viewport1) (Some 13%Q);
              RegionDidChange (Some viewport2) (Some 10%Q)] mounted in
  (active s → ∃ h f, pollingIntervalRef s = Some h ∧ intervals s = {[h := f]})
  ∧ (¬ active s → pollingIntervalRef s = None ∧ intervals s = ∅).
Proof.
  intros s. apply (interval_iff_active (H := iso8601_getTime)). by eexists.
Defined.

(** X14. A region change for which the map view answers no bounds, no zoom
    or a zoom of 0 is ignored altogether: the state of a reachable
    component stays what it was, also when it was Active; in particular a
    zoom of 0, though below the threshold, neither clears the store nor
    stops the polling. *)
Theorem region_change_ignored `{JsDate}
    (s : State) (bounds : option ((Q * Q) * (Q * Q))) (currentZoom : option Q) :
  reachable s →
  bounds = None ∨ currentZoom = None ∨ (∃ z, currentZoom = Some z ∧ (z == 0)%Q) →
  step s (RegionDidChange bounds currentZoom) = s.
Proof.
  intros [_ [(d & Hd & Hsame) _]]%reachable_wf Hignored.
  assert (handle (RegionDidChange bounds currentZoom) s = s) as Hhandle.
  { simpl. unfold handleRegionDidChange.
    destruct bounds as [b|]; [|done]. destruct currentZoom as [z|]; [|done].
    destruct Hignored as [? | [? | (z' & [= <-] & Hz%Qeq_bool_iff)]]; try done.
    by rewrite Hz. }
  unfold step. rewrite Hhandle, (render_cases s d) by done. by rewrite Hsame.
Qed.

Lemma region_change_ignored_witness :
  let s := run (H := iso8601_getTime)
             [RegionDidChange (Some viewport1) (Some 13%Q)] mounted in
  step (H := iso8601_getTime) s (RegionDidChange (Some viewport2) (Some 0%Q)) = s.
Proof.
  intros s. apply (region_change_ignored (H := iso8601_getTime)).
  - by eexists.
  - right. right. exists 0%Q. split; reflexivity.
Defined.

(** *** The closure of the interval *)

Lemma handle_bbox `{JsDate} (e : Event) (s : State) :
  bbox (handle e s) = bbox s
  ∨ ∃ b, bbox (handle e s) = Some (mkBboxObj (nextObj s) b).
Proof.
  destruct e as [bounds currentZoom | h now | i response | i]; simpl.
  - unfold handleRegionDidChange.
    destruct bounds as [bounds|]; [|by left].
    destruct currentZoom as [z|]; [|by left].
    destruct (Qeq_bool z 0); [by left |].
    right. eexists. by destruct (Qltb z Config.MIN_ZOOM_LEVEL).
  - left. destruct (intervals s !! h) as [f|]; [|done].
    unfold intervalCallback. simpl.
    by destruct (fetchVessels_call_frame f s) as (_ & (_ & -> & _) & _).
  - left. destruct (pending s !! i); [|done].
    unfold fetchVessels_resolved.
    by destruct (0 <? length (resp_vessels response))%nat.
  - left. by destruct (pending s !! i).
Qed.

Lemma sameDeps_inv (d : Deps) (s : State) :
  sameDeps d (depsOf s) = true →
  dep_bbox d = obj_id <$> bbox s ∧ (dep_zoom d == zoom s)%Q
  ∧ dep_lastServerTime d = lastServerTime (store s).
Proof.
  unfold sameDeps, depsOf. simpl.
  rewrite !andb_true_iff, !bool_decide_eq_true, Qeq_bool_iff. tauto.
Qed.

(** The result of a run of the effect, field by field. *)
Lemma rerun_fields (s : State) :
  structural s →
  sameView s (rerun s) ∧ store (rerun s) = store s
  ∧ if inactiveView s
    then pollingIntervalRef (rerun s) = None ∧ intervals (rerun s) = ∅
         ∧ pending (rerun s) = pending s
         ∧ isLoading (rerun s) = isLoading s ∧ error (rerun s) = error s
    else pollingIntervalRef (rerun s) = Some (nextHandle s)
         ∧ intervals (rerun s) = {[nextHandle s := currentFetchVessels s]}
         ∧ pending (rerun s)
           = pending s ++
               [mkRequest (from_option obj_val (mkBbox 0 0 0 0) (bbox s))
                  (Math_round (zoom s))
                  (orUndefined (lastServerTime (store s)))]
         ∧ isLoading (rerun s) = true ∧ error (rerun s) = None.
Proof.
  intros Hs. pose proof (cleanup_quiet s Hs) as Hquiet. simpl in Hquiet.
  unfold rerun.
  set (s1 := if effectCleanup s then pollingCleanup s else s) in *.
  destruct Hquiet
    as (Href & Hint & (Hz & Hb & Hno) & Hnh & Hst & Hpend & Herr & Hload).
  rewrite pollingEffect_quiet by done.
  assert (inactiveView s1 = inactiveView s) as ->
    by (unfold inactiveView; by rewrite Hz, Hb).
  unfold sameView, currentFetchVessels.
  destruct (inactiveView s); simpl;
    rewrite ?Hz, ?Hb, ?Hno, ?Hnh, ?Hst, ?Hpend, ?Herr, ?Hload, ?Hint, ?Href;
    by repeat split.
Qed.

Lemma step_closureFresh `{JsDate} (s : State) (e : Event) :
  wf s → closureFresh s → closureFresh (step s e).
Proof.
  intros Hwf Hfresh. pose proof Hwf as [Hs [(d & Hd & Hsame) Hview]].
  unfold step.
  pose proof (handle_structural e s Hs) as Hs'.
  destruct (handle_sameTimer e s) as (_ & Hint & _ & Hdeps & _).
  rewrite (render_cases _ d) by (by rewrite Hdeps).
  destruct (sameDeps d (depsOf (handle e s))) eqn:Hsame'.
  - intros h f Hf. rewrite Hint in Hf. destruct (Hfresh h f Hf) as (Hb & Hz & Ht).
    apply sameDeps_inv in Hsame as (Hdb & Hdz & Hdt).
    apply sameDeps_inv in Hsame' as (Hdb' & Hdz' & Hdt').
    split; [|split].
    + rewrite Hb. destruct (handle_bbox e s) as [-> | [b Hnew]]; [done |].
      rewrite Hnew, Hdb in Hdb'. destruct Hs as [Hobj _].
      destruct (bbox s) as [o|]; [|done].
      specialize (Hobj o eq_refl). simpl in Hdb'. injection Hdb'. lia.
    + by rewrite Hz, <- Hdz, Hdz'.
    + by rewrite Ht, <- Hdt, Hdt'.
  - destruct (rerun_fields (handle e s) Hs') as ((Hz & Hb & _) & Hst & Hrest).
    intros h f Hf. rewrite Hz, Hb, Hst.
    destruct (inactiveView (handle e s)).
    + destruct Hrest as (_ & Hempty & _). by rewrite Hempty in Hf.
    + destruct Hrest as (_ & Hsingle & _). rewrite Hsingle in Hf.
      apply lookup_singleton_Some in Hf as [_ <-]. by repeat split.
Qed.

Lemma reachable_closureFresh `{JsDate} (s : State) :
  reachable s → closureFresh s.
Proof.
  intros [es ->]. induction es as [|e es IH] using rev_ind.
  - intros h f Hf. by vm_compute in Hf.
  - rewrite run_snoc. apply step_closureFresh; [|done].
    apply reachable_wf. by eexists.
Qed.

Lemma Math_round_comp (x y : Q) : (x == y)%Q → Math_round x = Math_round y.
Proof. intros Heq. unfold Math_round. apply Qfloor_comp. by rewrite Heq. Qed.

(** X15. A tick of the interval, in a reachable state: the callback's
    [fetchVessels] is not stale, so it sends exactly one request, for the
    current bounding box, the rounded current zoom and the current cursor;
    the store is swept at [now] and its cursor kept; the interval itself
    stays as it is. *)
Theorem interval_tick `{JsDate}
    (s : State) (h : nat) (f : FetchVessels) (now : Z) :
  reachable s → intervals s !! h = Some f →
  let s' := step s (IntervalTick h now) in
  ∃ b, bbox s = Some b
       ∧ pending s'
         = pending s ++ [mkRequest (obj_val b) (Math_round (zoom s))
                           (orUndefined (lastServerTime (store s)))]
       ∧ vessels (store s') = removeStaleVessels now (vessels (store s))
       ∧ lastServerTime (store s') = lastServerTime (store s)
       ∧ pollingIntervalRef s' = pollingIntervalRef s
       ∧ intervals s' = intervals s.
Proof.
  intros Hreach Hf s'.
  pose proof (reachable_wf s Hreach) as [[_ Htimer] [(d & Hd & Hsame) Hview]].
  destruct (reachable_closureFresh s Hreach h f Hf) as (Hb & Hz & Ht).
  assert (inactiveView s = false) as Hactive.
  { rewrite Hview. apply bool_decide_eq_false. intros Href.
    rewrite Href in Htimer. by rewrite Htimer in Hf. }
  unfold inactiveView in Hactive. apply orb_false_iff in Hactive as [Hzoom Hbbox].
  apply bool_decide_eq_false in Hbbox.
  destruct (bbox s) as [b|] eqn:Hbs; [|done]. exists b. split; [done |].
  assert (handle (IntervalTick h now) s
          = set_store (setVessels (removeStaleVessels now))
              (set_pending
                 (pending s ++
                    [mkRequest (obj_val b) (Math_round (zoom s))
                       (orUndefined (lastServerTime (store s)))])
                 (setError None (setIsLoading true s)))) as Hhandle.
  { simpl. rewrite Hf. unfold intervalCallback.
    destruct (fetchVessels_call_pending f s)
      as [[_ [Hnone | Hlow]] | (b' & Hb' & _ & ->)].
    - by rewrite Hb in Hnone.
    - rewrite (Qltb_comp _ _ _ Hz) in Hlow. congruence.
    - rewrite Hb in Hb'. injection Hb' as <-.
      by rewrite (Math_round_comp _ _ Hz), Ht. }
  subst s'. unfold step. rewrite Hhandle. clear Hhandle.
  match goal with |- context [render ?t] => set (s1 := t) end.
  assert (render s1 = s1) as ->.
  { rewrite (render_cases s1 d) by done.
    change (depsOf s1) with (depsOf s). by rewrite Hsame. }
  done.
Qed.

Lemma interval_tick_witness :
  let s := run (H := iso8601_getTime)
             [RegionDidChange (Some viewport1) (Some 13%Q);
              FetchResolved 0 response100] mounted in
  let s' := step (H := iso8601_getTime) s (IntervalTick 1 1704067335000) in
  ∃ b, bbox s = Some b
       ∧ pending s'
         = pending s ++ [mkRequest (obj_val b) (Math_round (zoom s))
                           (orUndefined (lastServerTime (store s)))]
       ∧ vessels (store s')
         = removeStaleVessels (H := iso8601_getTime) 1704067335000
             (vessels (store s))
       ∧ lastServerTime (store s') = lastServerTime (store s)
       ∧ pollingIntervalRef s' = pollingIntervalRef s
       ∧ intervals s' = intervals s.
Proof.
  intros s.
  apply (interval_tick (H := iso8601_getTime) s 1
           (mkFetchVessels
              (Some (mkBboxObj 0 (mkBbox (-122.5) 37.7 (-122.3) 37.8)))
              13 (Some "2024-01-01T00:00:20Z"%string))
           1704067335000).
  - by eexists.
  - vm_compute. reflexivity.
Defined.

(** X16. A fetch that resolves with a server time other than the cursor
    makes the effect run again, because [fetchVessels] depends on the
    cursor: while the controller is Active, a further request is sent at
    once, carrying the new cursor, and the interval is replaced by a new
    one.  With a server time equal to the cursor nothing further is sent
    and the interval stays. *)
Theorem fetch_resolved_refetches `{JsDate}
    (s : State) (i : nat) (req : Request) (response : Response) :
  reachable s → active s → pending s !! i = Some req →
  let s' := step s (FetchResolved i response) in
  (lastServerTime (store s) ≠ Some (server_time response) →
   ∃ b, bbox s = Some b
        ∧ pending s'
          = delete i (pending s)
            ++ [mkRequest (obj_val b) (Math_round (zoom s))
                  (orUndefined (Some (server_time response)))]
        ∧ pollingIntervalRef s' = Some (nextHandle s)
        ∧ pollingIntervalRef s' ≠ pollingIntervalRef s
        ∧ isLoading s' = true)
  ∧ (lastServerTime (store s) = Some (server_time response) →
     pending s' = delete i (pending s)
     ∧ pollingIntervalRef s' = pollingIntervalRef s
     ∧ intervals s' = intervals s
     ∧ isLoading s' = false).
Proof.
  intros Hreach Hactive%active_inactiveView Hreq s'.
  pose proof (reachable_wf s Hreach) as Hwf.
  pose proof Hwf as [[_ Htimer] [(d & Hd & Hsame) Hview]].
  set (s0 := handle (FetchResolved i response) s).
  pose proof (handle_structural (FetchResolved i response) s (proj1 Hwf)) as Hs0.
  fold s0 in Hs0.
  assert (s0 = fetchVessels_resolved response
                 (set_pending (delete i (pending s)) s)) as Hs0eq
    by (subst s0; simpl; by rewrite Hreq).
  assert (zoom s0 = zoom s ∧ bbox s0 = bbox s ∧ pending s0 = delete i (pending s)
          ∧ lastServerTime (store s0) = Some (server_time response)
          ∧ pollingIntervalRef s0 = pollingIntervalRef s
          ∧ intervals s0 = intervals s ∧ nextHandle s0 = nextHandle s
          ∧ effectDeps s0 = Some d ∧ isLoading s0 = false)
    as (Hz0 & Hb0 & Hp0 & Ht0 & Hr0 & Hi0 & Hn0 & Hd0 & Hl0).
  { rewrite Hs0eq. unfold fetchVessels_resolved.
    by destruct (0 <? length (resp_vessels response))%nat. }
  assert (inactiveView s0 = false) as Hactive0
    by (unfold inactiveView in *; by rewrite Hz0, Hb0).
  apply sameDeps_inv in Hsame as (Hdb & Hdz & Hdt).
  assert (s' = render s0) as -> by done.
  rewrite (render_cases s0 d) by done.
  split.
  - intros Hnew.
    assert (sameDeps d (depsOf s0) = false) as ->.
    { destruct (sameDeps d (depsOf s0)) eqn:Hsame0; [|done].
      apply sameDeps_inv in Hsame0 as (_ & _ & Hdt0). congruence. }
    destruct (rerun_fields s0 Hs0) as (_ & _ & Hrest).
    rewrite Hactive0 in Hrest. destruct Hrest as (Href & _ & Hpend & Hload & _).
    pose proof Hactive as Hbbox. unfold inactiveView in Hbbox.
    apply orb_false_iff in Hbbox as [_ Hbbox].
    apply bool_decide_eq_false in Hbbox.
    destruct (bbox s) as [b|] eqn:Hbs; [|done]. exists b.
    rewrite Hpend, Href, Hp0, Hb0, Hz0, Ht0, Hn0. simpl.
    repeat split; try done.
    rewrite Hactive in Hview. symmetry in Hview.
    apply bool_decide_eq_false in Hview.
    destruct (pollingIntervalRef s) as [h|]; [|done].
    destruct Htimer as (Hh & _). intros [= Heq]. lia.
  - intros Hsame0.
    assert (sameDeps d (depsOf s0) = true) as ->.
    { unfold sameDeps, depsOf. simpl. rewrite Hb0, Hz0, Ht0.
      rewrite !andb_true_iff, !bool_decide_eq_true, Qeq_bool_iff.
      repeat split; try done. by rewrite Hdt. }
    done.
Qed.

Lemma fetch_resolved_refetches_witness :
  let s := run (H := iso8601_getTime)
             [RegionDidChange (Some viewport1) (Some 13%Q)] mounted in
  let s' := step (H := iso8601_getTime) s (FetchResolved 0 response100) in
  (lastServerTime (store s) ≠ Some (server_time response100) →
   ∃ b, bbox s = Some b
        ∧ pending s'
          = delete 0%nat (pending s)
            ++ [mkRequest (obj_val b) (Math_round (zoom s))
                  (orUndefined (Some (server_time response100)))]
        ∧ pollingIntervalRef s' = Some (nextHandle s)
        ∧ pollingIntervalRef s' ≠ pollingIntervalRef s
        ∧ isLoading s' = true)
  ∧ (lastServerTime (store s) = Some (server_time response100) →
     pending s' = delete 0%nat (pending s)
     ∧ pollingIntervalRef s' = pollingIntervalRef s
     ∧ intervals s' = intervals s
     ∧ isLoading s' = false).
Proof.
  intros s.
  apply (fetch_resolved_refetches (H := iso8601_getTime) s 0
           (mkRequest (mkBbox (-122.5) 37.7 (-122.3) 37.8) 13 None) response100).
  - by eexists.
  - apply active_inactiveView. vm_compute. reflexivity.
  - vm_compute. reflexivity.
Defined.

(** X17. Inactive to Active: when a controller that is not Active is shown
    a viewport at a zoom at or above the threshold, it becomes Active, one
    request for that viewport is sent at once with the cursor it has, and
    then the one interval is set; the store is not touched. *)
Theorem region_change_starts_polling `{JsDate}
    (s : State) (bounds : (Q * Q) * (Q * Q)) (z : Q) :
  reachable s → ¬ active s → (Config.MIN_ZOOM_LEVEL <= z)%Q →
  let s' := step s (RegionDidChange (Some bounds) (Some z)) in
  let newBbox := mkBbox bounds.1.1 bounds.1.2 bounds.2.1 bounds.2.2 in
  (pollingIntervalRef s = None ∧ intervals s = ∅)
  ∧ active s'
  ∧ store s' = store s
  ∧ pending s'
    = pending s ++ [mkRequest newBbox (Math_round z)
                      (orUndefined (lastServerTime (store s)))]
  ∧ pollingIntervalRef s' = Some (nextHandle s)
  ∧ intervals s' = {[nextHandle s := currentFetchVessels s']}
  ∧ isLoading s' = true ∧ error s' = None.
Proof.
  intros Hreach Hinactive Hz s' newBbox.
  pose proof (reachable_wf s Hreach) as Hwf.
  destruct (wf_timer s Hwf) as [_ Hoff].
  rewrite active_inactiveView in Hinactive.
  apply not_false_is_true in Hinactive.
  assert (Qltb z Config.MIN_ZOOM_LEVEL = false) as Hzlt
    by (unfold Qltb; apply negb_false_iff; by apply Qle_bool_iff).
  assert (Qeq_bool z 0 = false) as Hz0.
  { destruct (Qeq_bool z 0) eqn:Heq; [|done].
    apply Qeq_bool_iff in Heq. unfold Config.MIN_ZOOM_LEVEL in Hz. lra. }
  destruct (step_region_rerun s bounds z Hwf Hz0)
    as (Hstep & Hs0 & Hb0 & Hz0' & Hpend0 & Hst0).
  rewrite Hzlt in Hst0.
  set (s0 := handleRegionDidChange (Some bounds) (Some z) s) in *.
  destruct (handle_sameTimer (RegionDidChange (Some bounds) (Some z)) s)
    as (_ & _ & Hnh0 & _ & _).
  change (handle (RegionDidChange (Some bounds) (Some z)) s) with s0 in Hnh0.
  assert (inactiveView s0 = false) as Hview0.
  { unfold inactiveView. by rewrite Hz0', Hb0, Hzlt. }
  destruct (rerun_fields s0 Hs0) as ((Hz1 & Hb1 & _) & Hst1 & Hrest).
  rewrite Hview0 in Hrest.
  destruct Hrest as (Href & Hint & Hpend & Hload & Herr).
  assert (s' = rerun s0) as -> by done.
  split; [by apply Hoff |]. split.
  { apply active_inactiveView. unfold inactiveView. by rewrite Hz1, Hb1. }
  unfold currentFetchVessels.
  rewrite Hpend, Href, Hint, Hload, Herr, Hz1, Hb1, Hst1.
  rewrite Hst0, Hpend0, Hnh0, Hb0, Hz0'.
  repeat split.
  unfold currentFetchVessels. by rewrite Hb0, Hz0', Hst0.
Qed.

Lemma region_change_starts_polling_witness :
  let s := run (H := iso8601_getTime)
             [RegionDidChange (Some viewport1) (Some 13%Q);
              RegionDidChange (Some viewport2) (Some 10%Q)] mounted in
  let s' := step (H := iso8601_getTime) s
              (RegionDidChange (Some viewport1) (Some 12.4%Q)) in
  let newBbox := mkBbox (-122.5) 37.7 (-122.3) 37.8 in
  (pollingIntervalRef s = None ∧ intervals s = ∅)
  ∧ active s'
  ∧ store s' = store s
  ∧ pending s'
    = pending s ++ [mkRequest newBbox (Math_round 12.4)
                      (orUndefined (lastServerTime (store s)))]
  ∧ pollingIntervalRef s' = Some (nextHandle s)
  ∧ intervals s' = {[nextHandle s := currentFetchVessels s']}
  ∧ isLoading s' = true ∧ error s' = None.
Proof.
  intros s.
  apply (region_change_starts_polling (H := iso8601_getTime) s viewport1 12.4%Q).
  - by eexists.
  - rewrite active_inactiveView. vm_compute. discriminate.
  - vm_compute. discriminate.
Defined.

(** *** The features shown on the map *)

Lemma keyed_updateMultipleVessels (vs : list Vessel) (m : gmap Z Vessel) :
  keyed m → keyed (updateMultipleVessels vs m).
Proof.
  intros Hm k v. rewrite lookup_updateMultipleVessels.
  destruct (lastWith k vs) as [w|] eqn:Hw; [|apply Hm].
  intros [= <-]. by eapply lastWith_mmsi.
Qed.

Lemma keyed_removeStaleVessels `{JsDate} (now : Z) (m : gmap Z Vessel) :
  keyed m → keyed (removeStaleVessels now m).
Proof.
  intros Hm k v Hk. apply Hm. by apply lookup_sweep_Some in Hk as [? _].
Qed.

Lemma handle_keyed `{JsDate} (e : Event) (s : State) :
  keyed (vessels (store s)) → keyed (vessels (store (handle e s))).
Proof.
  intros Hm.
  destruct e as [bounds currentZoom | h now | i response | i]; simpl.
  - unfold handleRegionDidChange.
    destruct bounds as [bounds|]; [|done].
    destruct currentZoom as [z|]; [|done].
    destruct (Qeq_bool z 0); [done |].
    destruct (Qltb z Config.MIN_ZOOM_LEVEL); [|done].
    intros k v. simpl. by rewrite lookup_empty.
  - destruct (intervals s !! h) as [f|]; [|done].
    unfold intervalCallback. simpl.
    destruct (fetchVessels_call_frame f s) as (_ & _ & ->).
    by apply keyed_removeStaleVessels.
  - destruct (pending s !! i); [|done].
    unfold fetchVessels_resolved.
    destruct (0 <? length (resp_vessels response))%nat; simpl; [|done].
    by apply keyed_updateMultipleVessels.
  - by destruct (pending s !! i).
Qed.

Lemma reachable_keyed `{JsDate} (s : State) :
  reachable s → keyed (vessels (store s)).
Proof.
  intros [es ->]. induction es as [|e es IH] using rev_ind.
  - intros k v. by vm_compute.
  - rewrite run_snoc. unfold step.
    destruct (render_frame (handle e (run es mounted))) as [-> _].
    by apply handle_keyed.
Qed.

(** X18. In every state the component can reach, each stored vessel sits
    under its own [mmsi], so [vesselGeoJSON] lists one feature per stored
    vessel and no two features share an [id]; each feature is the one of a
    stored vessel, with its point at (longitude, latitude). *)
Theorem vesselGeoJSON_ids_distinct `{JsDate} (s : State) :
  reachable s →
  let features := vesselGeoJSON (vessels (store s)) in
  NoDup (feat_id <$> features)
  ∧ length features = size (vessels (store s))
  ∧ (∀ ft, ft ∈ features ↔
           ∃ v, vessels (store s) !! mmsi v = Some v ∧ ft = toFeature v).
Proof.
  intros Hkeyed%reachable_keyed features. subst features.
  unfold vesselGeoJSON. split; [|split].
  - rewrite <- !list_fmap_compose.
    replace ((feat_id ∘ toFeature ∘ snd) <$> map_to_list (vessels (store s)))
      with ((map_to_list (vessels (store s))).*1).
    + apply NoDup_fst_map_to_list.
    + apply list_fmap_ext. intros i [k v] Hkv. simpl. symmetry.
      apply Hkeyed, elem_of_map_to_list. by eapply list_elem_of_lookup_2.
  - by rewrite !length_fmap, length_map_to_list.
  - intros ft. rewrite list_elem_of_fmap. split.
    + intros (v & -> & Hv). exists v. split; [|done].
      apply list_elem_of_fmap in Hv as ([k v'] & -> & Hkv).
      apply elem_of_map_to_list in Hkv. simpl.
      by rewrite (Hkeyed k v' Hkv).
    + intros (v & Hv & ->). exists v. split; [done |].
      apply list_elem_of_fmap. exists (mmsi v, v).
      split; [done | by apply elem_of_map_to_list].
Qed.

Lemma vesselGeoJSON_ids_distinct_witness :
  let s := run (H := iso8601_getTime)
             [RegionDidChange (Some viewport1) (Some 13%Q);
              FetchResolved 0 response100] mounted in
  let features := vesselGeoJSON (vessels (store s)) in
  NoDup (feat_id <$> features)
  ∧ length features = size (vessels (store s))
  ∧ (∀ ft, ft ∈ features ↔
           ∃ v, vessels (store s) !! mmsi v = Some v ∧ ft = toFeature v).
Proof.
  intros s. apply (vesselGeoJSON_ids_distinct (H := iso8601_getTime) s).
  by eexists.
Defined.

End VesselMapMore.
